(** * masbcpp: the shrinking-ball solver of compute_ma.cpp

    A shallow embedding of [compute_radius], [cos_angle], [sb_point] and
    [sb_points] (src/src/compute_ma.cpp), generic in the floating-point
    arithmetic the C++ types [Scalar] and [double] provide, together with an
    IEEE-754 instance (binary32 for [Scalar], binary64 for [double]) on which
    the solver can be run. *)

From Stdlib Require Import ZArith List Bool Lia Permutation.
From Stdlib Require Import Floats.SpecFloat.
From Stdlib Require Import Reals Lra.
From Stdlib Require Ascii String.
Import ListNotations.

Local Open Scope Z_scope.

(** ** The arithmetic of [Scalar] and [double]

    types.h (which fixes [Scalar]) and the Vrui headers are not part of the
    sources at hand, so the solver is written over an interface that lists
    exactly the operations the C++ text uses. *)

Class Arith (Scalar Double : Type) : Type := {
  s_add : Scalar -> Scalar -> Scalar;
  s_sub : Scalar -> Scalar -> Scalar;
  s_mul : Scalar -> Scalar -> Scalar;
  s_neg : Scalar -> Scalar;
  s_abs : Scalar -> Scalar;                (* Math::abs *)
  s_acos : Scalar -> Scalar;               (* Math::acos *)
  s_eqb : Scalar -> Scalar -> bool;        (* == *)
  s_ltb : Scalar -> Scalar -> bool;        (* <, and > with swapped operands *)
  s_of_int : Z -> Scalar;                  (* the int literals 0, 1, -1, 2 *)
  s_nan : Scalar;                          (* numeric_limits<Scalar>::quiet_NaN() *)
  d_mul : Double -> Double -> Double;
  d_div : Double -> Double -> Double;
  d_sqrt : Double -> Double;
  d_ltb : Double -> Double -> bool;
  d_nonzero : Double -> bool;              (* a double used as a condition *)
  d_1E_5 : Double;                         (* the literal 1E-5 *)
  to_double : Scalar -> Double;            (* promotion Scalar -> double *)
  of_double : Double -> Scalar             (* conversion double -> Scalar *)
}.

(** The facts about [<] and [==] that some of the statements below need; they
    hold of IEEE-754 comparison. A value [x] with [x == x] false is a NaN. *)
Class ArithLaws {Scalar Double : Type} (A : Arith Scalar Double) : Prop := {
  s_ltb_irrefl : forall x, s_ltb x x = false;
  s_ltb_ordered : forall x y,
    s_ltb x y = true -> s_eqb x x = true /\ s_eqb y y = true;
  s_ltb_below_zero : forall x y,
    s_ltb x y = true -> s_ltb y (s_of_int 0) = true -> s_ltb x (s_of_int 0) = true;
  s_ltb_total : forall x y,
    s_eqb x x = true -> s_eqb y y = true ->
    s_ltb x y = false -> s_ltb y x = false -> s_eqb x y = true;
  s_below_minus_one : forall x,
    s_ltb x (s_of_int (-1)) = true -> s_ltb (s_of_int 1) x = false;
  s_units : s_eqb (s_of_int 1) (s_of_int 1) = true
            /\ s_eqb (s_of_int (-1)) (s_of_int (-1)) = true
            /\ s_ltb (s_of_int (-1)) (s_of_int 1) = true
}.

(** ** Geometry (Vrui's Point and Vector over [Scalar], dimension 3) *)

Record Point (Scalar : Type) : Type := mkPoint { px : Scalar; py : Scalar; pz : Scalar }.
Record Vector (Scalar : Type) : Type := mkVector { vx : Scalar; vy : Scalar; vz : Scalar }.
Arguments mkPoint {Scalar} _ _ _.
Arguments px {Scalar} _.
Arguments py {Scalar} _.
Arguments pz {Scalar} _.
Arguments mkVector {Scalar} _ _ _.
Arguments vx {Scalar} _.
Arguments vy {Scalar} _.
Arguments vz {Scalar} _.

(** kdtree2's result entry and the part of the tree the solver touches:
    the point array [the_data] and the query [n_nearest]. *)
Record KDTreeResult (Scalar : Type) : Type := mkResult { dis : Scalar; idx : Z }.
Arguments mkResult {Scalar} _ _.
Arguments dis {Scalar} _.
Arguments idx {Scalar} _.

Record KDTree (Scalar : Type) : Type := mkTree {
  the_data : list (Point Scalar);
  n_nearest : Point Scalar -> nat -> list (KDTreeResult Scalar)
}.
Arguments mkTree {Scalar} _ _.
Arguments the_data {Scalar} _.
Arguments n_nearest {Scalar} _ _ _.

(** The globals of compute_ma.cpp that parametrise the solver. *)
Record Config (Scalar Double : Type) : Type := mkConfig {
  initial_radius : Scalar;
  nan_for_initr : bool;
  denoise_preserve : Double;
  denoise_planar : Double
}.
Arguments mkConfig {Scalar Double} _ _ _ _.
Arguments initial_radius {Scalar Double} _.
Arguments nan_for_initr {Scalar Double} _.
Arguments denoise_preserve {Scalar Double} _.
Arguments denoise_planar {Scalar Double} _.

(** types.h: [struct ma_result { Point c; int qidx; }]. *)
Record ma_result (Scalar : Type) : Type := mkResultMA { res_c : Point Scalar; res_qidx : Z }.
Arguments mkResultMA {Scalar} _ _.
Arguments res_c {Scalar} _.
Arguments res_qidx {Scalar} _.

(** The local variables of [sb_point] that live across iterations. *)
Record state (Scalar : Type) : Type := mkState {
  j : Z;                      (* unsigned int *)
  r_previous : Scalar;
  c : Point Scalar;
  qidx : Z                    (* int *)
}.
Arguments mkState {Scalar} _ _ _ _.
Arguments j {Scalar} _.
Arguments r_previous {Scalar} _.
Arguments c {Scalar} _.
Arguments qidx {Scalar} _.

(** Which [break] left the loop. *)
Inductive stop : Type :=
| SelfMatch          (* q == p and r_previous == initial_radius *)
| Ceiling            (* r > initial_radius *)
| DenoisePreserve
| DenoisePlanar
| Converged          (* |r_previous - r| < delta_convergance *)
| IterationLimit.    (* j > iteration_limit *)

(** One pass through the loop body: it commits and goes round again, it
    breaks, or it indexes [result] or [the_data] out of range. *)
Inductive step_result (Scalar : Type) : Type :=
| Next (st : state Scalar)
| Stop (why : stop) (res : ma_result Scalar)
| Fault.
Arguments Next {Scalar} _.
Arguments Stop {Scalar} _ _.
Arguments Fault {Scalar}.

(** How a call of [sb_point] ends. *)
Inductive ending (Scalar : Type) : Type :=
| Returned (why : stop) (res : ma_result Scalar)
| Faulted
| OutOfFuel.
Arguments Returned {Scalar} _ _.
Arguments Faulted {Scalar}.
Arguments OutOfFuel {Scalar}.

(** What lines 94-119 of a pass come to: the neighbour the radius is computed
    for, the self-match [break], or an index out of range. *)
Inductive lookup (Scalar : Type) : Type :=
| Found (qidx_next : Z) (q : Point Scalar)
| OwnPoint
| OutOfRange.
Arguments Found {Scalar} _ _.
Arguments OwnPoint {Scalar}.
Arguments OutOfRange {Scalar}.

(** [v[i]] of a std::vector or array: defined only within range. *)
Definition vec_at {T : Type} (v : list T) (i : Z) : option T :=
  if i <? 0 then None else nth_error v (Z.to_nat i).

Definition iteration_limit : Z := 30.
Definition uint_max : Z := 2 ^ 32.
Definition int_max : Z := 2 ^ 31 - 1.

Section Solver.
Context {Scalar Double : Type} {A : Arith Scalar Double}.

Definition s_zero : Scalar := s_of_int 0.
Definition s_one : Scalar := s_of_int 1.
Definition s_minus_one : Scalar := s_of_int (-1).
Definition s_two : Scalar := s_of_int 2.

(** [const Scalar delta_convergance = 1E-5]. *)
Definition delta_convergance : Scalar := of_double d_1E_5.

(** [const Point nanPoint( quiet_NaN )]. *)
Definition nanPoint : Point Scalar := mkPoint s_nan s_nan s_nan.

(** Modelled from the spec: Vrui's Geometry operators on Point and Vector
    (headers not under src/), component by component: Point - Point,
    Point - Vector, Vector * Scalar, -Vector, and the dot product
    Vector * Vector summed from the first component on. *)
Definition pt_diff (a b : Point Scalar) : Vector Scalar :=
  mkVector (s_sub (px a) (px b)) (s_sub (py a) (py b)) (s_sub (pz a) (pz b)).

Definition pt_sub_vec (a : Point Scalar) (v : Vector Scalar) : Point Scalar :=
  mkPoint (s_sub (px a) (vx v)) (s_sub (py a) (vy v)) (s_sub (pz a) (vz v)).

Definition vec_scale (v : Vector Scalar) (s : Scalar) : Vector Scalar :=
  mkVector (s_mul (vx v) s) (s_mul (vy v) s) (s_mul (vz v) s).

Definition vec_neg (v : Vector Scalar) : Vector Scalar :=
  mkVector (s_neg (vx v)) (s_neg (vy v)) (s_neg (vz v)).

Definition dot (u v : Vector Scalar) : Scalar :=
  s_add (s_add (s_mul (vx u) (vx v)) (s_mul (vy u) (vy v))) (s_mul (vz u) (vz v)).

(** Modelled from the spec: Geometry::mag (Vrui, not under src/), the L2 norm:
    the square root, taken in double, of the squared norm. *)
Definition mag (v : Vector Scalar) : Double := d_sqrt (to_double (dot v v)).

(** Modelled from the spec: Point == Point (Vrui, not under src/): all three
    components compare equal. *)
Definition pt_eqb (a b : Point Scalar) : bool :=
  s_eqb (px a) (px b) && s_eqb (py a) (py b) && s_eqb (pz a) (pz b).

(** [compute_radius] (lines 61-67). *)
Definition compute_radius (p : Point Scalar) (n : Vector Scalar) (q : Point Scalar) : Scalar :=
  let d := mag (pt_diff p q) in
  let cos_theta := of_double (d_div (to_double (dot n (pt_diff p q))) d) in
  of_double (d_div d (to_double (s_mul s_two cos_theta))).

(** The quotient [cos_angle] computes before clamping. *)
Definition cos_angle_raw (p q : Vector Scalar) : Scalar :=
  of_double (d_div (to_double (dot p q)) (d_mul (mag p) (mag q))).

(** [cos_angle] (lines 69-76). *)
Definition cos_angle (p q : Vector Scalar) : Scalar :=
  let result := cos_angle_raw p q in
  if s_ltb s_one result then s_one
  else if s_ltb result s_minus_one then s_minus_one
  else result.

Variable cfg : Config Scalar Double.

(** [nan_for_initr ? nanPoint : p - n * r] with [r = initial_radius]. *)
Definition ceiling_center (p : Point Scalar) (n : Vector Scalar) : Point Scalar :=
  if nan_for_initr cfg then nanPoint
  else pt_sub_vec p (vec_scale n (initial_radius cfg)).

(** Lines 142-176: from the denoising block to the end of the body, entered
    with the candidate radius [r] and the neighbour [q] at [qidx_next]. *)
Definition settle (p : Point Scalar) (n : Vector Scalar) (st : state Scalar)
    (qidx_next : Z) (q : Point Scalar) (r : Scalar) : step_result Scalar :=
  let c_next := pt_sub_vec p (vec_scale n r) in
  let separation_angle := s_acos (cos_angle (pt_diff p c_next) (pt_diff q c_next)) in
  let denoising := d_nonzero (denoise_preserve cfg) || d_nonzero (denoise_planar cfg) in
  if denoising && d_nonzero (denoise_preserve cfg)
     && d_ltb (to_double separation_angle) (denoise_preserve cfg)
     && (0 <? j st) && d_ltb (mag (pt_diff q p)) (to_double r)
  then Stop DenoisePreserve (mkResultMA (c st) (qidx st))
  else if denoising && d_nonzero (denoise_planar cfg)
     && d_ltb (to_double separation_angle) (denoise_planar cfg)
     && (j st =? 0)
  then Stop DenoisePlanar (mkResultMA (ceiling_center p n) (qidx st))
  else if s_ltb (s_abs (s_sub (r_previous st) r)) delta_convergance
  then Stop Converged (mkResultMA (c st) (qidx st))
  else if iteration_limit <? j st
  then Stop IterationLimit (mkResultMA (c st) (qidx st))
  else Next (mkState ((j st + 1) mod uint_max) r c_next qidx_next).

(** Lines 121-140: the radius of the candidate and the two guards on it. *)
Definition shrink (p : Point Scalar) (n : Vector Scalar) (st : state Scalar)
    (qidx_next : Z) (q : Point Scalar) : step_result Scalar :=
  let r := compute_radius p n q in
  if s_ltb r s_zero then settle p n st qidx_next q (initial_radius cfg)
  else if s_ltb (initial_radius cfg) r
  then Stop Ceiling (mkResultMA (ceiling_center p n) (qidx st))
  else settle p n st qidx_next q r.

(** Lines 94-119 followed by the rest of the body. *)
Definition sb_body (p : Point Scalar) (n : Vector Scalar) (kd_tree : KDTree Scalar)
    (st : state Scalar) : step_result Scalar :=
  let result := n_nearest kd_tree (c st) 2 in
  match vec_at result 0 with
  | None => Fault
  | Some res0 =>
    match vec_at (the_data kd_tree) (idx res0) with
    | None => Fault
    | Some q0 =>
      if pt_eqb q0 p then
        if s_eqb (r_previous st) (initial_radius cfg)
        then Stop SelfMatch (mkResultMA (ceiling_center p n) (qidx st))
        else
          match vec_at result 1 with
          | None => Fault
          | Some res1 =>
            match vec_at (the_data kd_tree) (idx res1) with
            | None => Fault
            | Some q1 => shrink p n st (idx res1) q1
            end
          end
      else shrink p n st (idx res0) q0
    end
  end.

(** Lines 94-119 on their own: the query for the two points closest to [c],
    the test [q == p], and the choice of the second closest point. *)
Definition closest_point (p : Point Scalar) (kd_tree : KDTree Scalar)
    (st : state Scalar) : lookup Scalar :=
  let result := n_nearest kd_tree (c st) 2 in
  match vec_at result 0 with
  | None => OutOfRange
  | Some res0 =>
    match vec_at (the_data kd_tree) (idx res0) with
    | None => OutOfRange
    | Some q0 =>
      if pt_eqb q0 p then
        if s_eqb (r_previous st) (initial_radius cfg)
        then OwnPoint
        else
          match vec_at result 1 with
          | None => OutOfRange
          | Some res1 =>
            match vec_at (the_data kd_tree) (idx res1) with
            | None => OutOfRange
            | Some q1 => Found (idx res1) q1
            end
          end
      else Found (idx res0) q0
    end
  end.

(** [while (1)]: the states in which the body was entered, in order, and how
    the call ended. *)
Fixpoint sb_loop (fuel : nat) (p : Point Scalar) (n : Vector Scalar)
    (kd_tree : KDTree Scalar) (st : state Scalar) : list (state Scalar) * ending Scalar :=
  match fuel with
  | O => ([], OutOfFuel)
  | S fuel' =>
    match sb_body p n kd_tree st with
    | Next st' =>
        let (visited, e) := sb_loop fuel' p n kd_tree st' in (st :: visited, e)
    | Stop why res => ([st], Returned why res)
    | Fault => ([st], Faulted)
    end
  end.

(** The locals as initialised on lines 80-84. *)
Definition sb_init (p : Point Scalar) (n : Vector Scalar) : state Scalar :=
  mkState 0 s_zero (pt_sub_vec p (vec_scale n (initial_radius cfg))) (-1).

Definition sb_run (fuel : nat) (p : Point Scalar) (n : Vector Scalar)
    (kd_tree : KDTree Scalar) : list (state Scalar) * ending Scalar :=
  sb_loop fuel p n kd_tree (sb_init p n).

(** [sb_point] (lines 78-179). The loop needs at most 32 passes
    ([sb_loop_fuel] below), so that much fuel is no restriction. *)
Definition sb_point (p : Point Scalar) (n : Vector Scalar) (kd_tree : KDTree Scalar)
    : ending Scalar :=
  snd (sb_run 32 p n kd_tree).

(** The number of times [sb_point] runs the loop body (queries the tree). *)
Definition sb_iterations (p : Point Scalar) (n : Vector Scalar) (kd_tree : KDTree Scalar)
    : nat :=
  length (fst (sb_run 32 p n kd_tree)).

(** [sb_points] (lines 181-199): slot [i] of the two output arrays. *)
Definition sb_points (points : list (Point Scalar)) (normals : list (Vector Scalar))
    (kd_tree : KDTree Scalar) (inner : bool) : list (ending Scalar) :=
  map (fun i =>
         match nth_error points i, nth_error normals i with
         | Some p, Some n0 => sb_point p (if inner then n0 else vec_neg n0) kd_tree
         | _, _ => Faulted
         end)
      (seq 0 (length points)).

End Solver.

(** ** The spatial index

    Modelled from the spec: kdtree2 is not part of the sources at hand. The
    spec asks of it only that a query returns the (at most) [k] points
    nearest to the query location, with index and distance, closest first;
    this exhaustive search does that (kdtree2 reports squared distances), and
    keeps the lower index first among entries it cannot order. *)

Section BruteForce.
Context {Scalar Double : Type} {A : Arith Scalar Double}.

Definition sq_dist (a b : Point Scalar) : Scalar :=
  dot (pt_diff a b) (pt_diff a b).

Fixpoint insert_result (e : KDTreeResult Scalar) (l : list (KDTreeResult Scalar))
    : list (KDTreeResult Scalar) :=
  match l with
  | [] => [e]
  | h :: t => if s_ltb (dis e) (dis h) then e :: l else h :: insert_result e t
  end.

Fixpoint scan_points (pts : list (Point Scalar)) (i : Z) (qv : Point Scalar)
    (acc : list (KDTreeResult Scalar)) : list (KDTreeResult Scalar) :=
  match pts with
  | [] => acc
  | x :: rest => scan_points rest (i + 1) qv (insert_result (mkResult (sq_dist x qv) i) acc)
  end.

Definition exhaustive_tree (pts : list (Point Scalar)) : KDTree Scalar :=
  mkTree pts (fun qv k => firstn k (scan_points pts 0 qv [])).

(** The same search with the other choice among entries it cannot order: the
    higher index first. *)
Fixpoint insert_result_late (e : KDTreeResult Scalar) (l : list (KDTreeResult Scalar))
    : list (KDTreeResult Scalar) :=
  match l with
  | [] => [e]
  | h :: t => if s_ltb (dis h) (dis e) then h :: insert_result_late e t else e :: l
  end.

Fixpoint scan_points_late (pts : list (Point Scalar)) (i : Z) (qv : Point Scalar)
    (acc : list (KDTreeResult Scalar)) : list (KDTreeResult Scalar) :=
  match pts with
  | [] => acc
  | x :: rest =>
      scan_points_late rest (i + 1) qv (insert_result_late (mkResult (sq_dist x qv) i) acc)
  end.

Definition exhaustive_tree_late (pts : list (Point Scalar)) : KDTree Scalar :=
  mkTree pts (fun qv k => firstn k (scan_points_late pts 0 qv [])).

End BruteForce.

(** ** IEEE-754 arithmetic: [Scalar] as binary32, [double] as binary64

    Modelled from the spec: types.h, which fixes [Scalar], is not under src/.
    The spec stores points and results as single-precision floats, and [main]
    reads and writes them as such; [SpecFloat] gives the operations for any
    precision, rounding to nearest even. *)

Module IEEE.

Definition prec32 : Z := 24.
Definition emax32 : Z := 128.
Definition prec64 : Z := 53.
Definition emax64 : Z := 1024.

Definition widen (x : spec_float) : spec_float :=
  match x with
  | S754_finite s m e => binary_round prec64 emax64 s m e
  | _ => x
  end.

Definition narrow (x : spec_float) : spec_float :=
  match x with
  | S754_finite s m e => binary_round prec32 emax32 s m e
  | _ => x
  end.

Definition f32_of_Z (z : Z) : spec_float := binary_normalize prec32 emax32 z 0 false.
Definition f64_of_Z (z : Z) : spec_float := binary_normalize prec64 emax64 z 0 false.

(** [m * 2^e] as a binary32 and as a binary64 value. *)
Definition f32 (m e : Z) : spec_float := binary_normalize prec32 emax32 m e false.
Definition f64 (m e : Z) : spec_float := binary_normalize prec64 emax64 m e false.

Definition d_add64 := SFadd prec64 emax64.
Definition d_sub64 := SFsub prec64 emax64.
Definition d_mul64 := SFmul prec64 emax64.
Definition d_div64 := SFdiv prec64 emax64.
Definition d_sqrt64 := SFsqrt prec64 emax64.

(** M_PI, the double nearest to pi. *)
Definition M_PI : spec_float := S754_finite false 7074237752028440 (-51).

(** Modelled from the spec: Math::acos (libm's arccosine, not part of the
    sources at hand). The arcsine series is summed in binary64 and the result
    rounded to binary32; it is exact at 1 and NaN outside [-1, 1], and may
    differ from a given libm in the last bit elsewhere. *)
Fixpoint asin_series (k : nat) (i : Z) (x2 term sum : spec_float) : spec_float :=
  match k with
  | O => sum
  | S k' =>
    let term' := d_div64 (d_mul64 (d_mul64 term x2) (f64_of_Z (2 * i + 1)))
                         (f64_of_Z (2 * i + 2)) in
    asin_series k' (i + 1) x2 term' (d_add64 sum (d_div64 term' (f64_of_Z (2 * i + 3))))
  end.

Definition asin_small (x : spec_float) : spec_float :=
  asin_series 40 0 (d_mul64 x x) x x.

Definition acos64 (x : spec_float) : spec_float :=
  let one := f64_of_Z 1 in
  let two := f64_of_Z 2 in
  let half := f64 1 (-1) in
  match SFcompare x x with
  | None => S754_nan
  | Some _ =>
    if SFltb one x || SFltb x (SFopp one) then S754_nan
    else if SFltb half x
    then d_mul64 two (asin_small (d_sqrt64 (d_div64 (d_sub64 one x) two)))
    else if SFltb x (SFopp half)
    then d_sub64 M_PI (d_mul64 two (asin_small (d_sqrt64 (d_div64 (d_add64 one x) two))))
    else d_sub64 (d_div64 M_PI two) (asin_small x)
  end.

Definition acosf (x : spec_float) : spec_float := narrow (acos64 (widen x)).

Definition nonzero (x : spec_float) : bool := negb (SFeqb x (S754_zero false)).


(** The sign bit of a value; NaN has none in this model. *)
Definition sign_bit (x : spec_float) : option bool :=
  match x with
  | S754_zero s | S754_infinity s | S754_finite s _ _ => Some s
  | S754_nan => None
  end.

Definition is_zero (x : spec_float) : bool :=
  match x with
  | S754_zero _ => true
  | _ => false
  end.

(** [x] is not negative, nor a negative zero or infinity. *)
Definition no_minus (x : spec_float) : Prop := sign_bit x <> Some true.

(** [r] is NaN or has the sign bit of [a]. *)
Definition signed_as (r a : spec_float) : Prop :=
  sign_bit r = None \/ sign_bit r = sign_bit a.

#[export] Instance arith : Arith spec_float spec_float := {|
  s_add := SFadd prec32 emax32;
  s_sub := SFsub prec32 emax32;
  s_mul := SFmul prec32 emax32;
  s_neg := SFopp;
  s_abs := SFabs;
  s_acos := acosf;
  s_eqb := SFeqb;
  s_ltb := SFltb;
  s_of_int := f32_of_Z;
  s_nan := S754_nan;
  d_mul := d_mul64;
  d_div := d_div64;
  d_sqrt := d_sqrt64;
  d_ltb := SFltb;
  d_nonzero := nonzero;
  d_1E_5 := d_div64 (f64_of_Z 1) (f64_of_Z 100000);
  to_double := widen;
  of_double := narrow
|}.

(** The command line's defaults (main, lines 211-224): thresholds of 20 and
    32 degrees turned into radians, a ceiling of 200, no NaN output. *)
Definition radians (deg : Z) : spec_float :=
  d_mul64 (d_div64 M_PI (f64_of_Z 180)) (f64_of_Z deg).

Definition default_config (radius : Z) : Config spec_float spec_float :=
  mkConfig (f32_of_Z radius) false (radians 20) (radians 32).

(** The same with both denoising rules switched off ([-d 0 -p 0]). *)
Definition plain_config (radius : Z) : Config spec_float spec_float :=
  mkConfig (f32_of_Z radius) false (f64_of_Z 0) (f64_of_Z 0).

Definition pt (x y z : Z) : Point spec_float := mkPoint (f32_of_Z x) (f32_of_Z y) (f32_of_Z z).
Definition vec (x y z : Z) : Vector spec_float := mkVector (f32_of_Z x) (f32_of_Z y) (f32_of_Z z).

End IEEE.

(** ** The real numbers behind the values

    The spec derives the radius formula over the real numbers. [spec_radius]
    is that derivation as the spec words it; [exact_steps] names the inputs on
    which [compute_radius] rounds nowhere, for a given reading of the values
    of [Scalar] and [double] as real numbers. *)

Section RealGeometry.
Local Open Scope R_scope.






End RealGeometry.

Section Reading.
Context {Scalar Double : Type} {A : Arith Scalar Double}.
Variables (sval : Scalar -> R) (dval : Double -> R).
Local Open Scope R_scope.



(** The local [cos_theta] of [compute_radius] (line 65). *)
Definition cos_theta (p : Point Scalar) (n : Vector Scalar) (q : Point Scalar) : Scalar :=
  of_double (d_div (to_double (dot n (pt_diff p q))) (mag (pt_diff p q))).


End Reading.

(** ** Runs of the loop, and what the solver expects of its inputs *)

Section Runs.
Context {Scalar Double : Type} {A : Arith Scalar Double}.
Variable cfg : Config Scalar Double.
Variables (p : Point Scalar) (n : Vector Scalar) (kd_tree : KDTree Scalar).

(** [runs st visited e]: started in [st], the loop enters its body in the
    states [visited], one after the other, and then ends as [e]. *)
Inductive runs : state Scalar -> list (state Scalar) -> ending Scalar -> Prop :=
| runs_stop : forall st why res,
    sb_body cfg p n kd_tree st = Stop why res -> runs st [st] (Returned why res)
| runs_fault : forall st,
    sb_body cfg p n kd_tree st = Fault -> runs st [st] Faulted
| runs_next : forall st st' visited e,
    sb_body cfg p n kd_tree st = Next st' -> runs st' visited e ->
    runs st (st :: visited) e.

End Runs.

Section Contracts.
Context {Scalar Double : Type} {A : Arith Scalar Double}.

(** [a <= b] spelled with the two comparisons the code uses. *)
Definition s_leb (a b : Scalar) : bool := s_ltb a b || s_eqb a b.

(** The domain of the arccosine. *)
Definition in_acos_domain (a : Scalar) : bool := s_leb s_minus_one a && s_leb a s_one.

Definition in_range (kd_tree : KDTree Scalar) (i : Z) : Prop :=
  0 <= i < Z.of_nat (length (the_data kd_tree)).

(** A query result whose entries carry indices into [the_data], no index twice. *)
Definition results_valid (kd_tree : KDTree Scalar) (result : list (KDTreeResult Scalar)) : Prop :=
  Forall (fun e => in_range kd_tree (idx e)) result /\ NoDup (map idx result).

(** Every query for two neighbours finds two. *)
Definition answers_two (kd_tree : KDTree Scalar) : Prop :=
  forall qv, (2 <= length (n_nearest kd_tree qv 2))%nat
             /\ results_valid kd_tree (n_nearest kd_tree qv 2).

(** No coordinate of a point of the set is NaN, and no two entries of the set
    compare equal. *)
Definition proper_points (points : list (Point Scalar)) : Prop :=
  forall a pa, nth_error points a = Some pa -> pt_eqb pa pa = true.

Definition distinct_points (points : list (Point Scalar)) : Prop :=
  forall a b pa pb, nth_error points a = Some pa -> nth_error points b = Some pb ->
                    a <> b -> pt_eqb pa pb = false.

(** The indices [i, i+1, ..., i+n-1]. *)
Definition index_seq (i : Z) (n : nat) : list Z := map (fun k => i + Z.of_nat k) (seq 0 n).

End Contracts.

(** ** Concrete inputs on which the solver is run below *)

Module Scenario.
Import IEEE.

Definition origin : Point spec_float := pt 0 0 0.
Definition up : Vector spec_float := vec 0 0 1.
Definition down : Vector spec_float := vec 0 0 (-1).

(** A point set of one point. *)
Definition single_point : list (Point spec_float) := [origin].

(** The two points of the spec's example: p = (0,0,0) and q = (0,0,1). *)
Definition two_points : list (Point spec_float) := [origin; pt 0 0 1].

(** The same point stored twice. *)
Definition twice : list (Point spec_float) := [pt 1 2 3; pt 1 2 3].
Definition twice_normals : list (Vector spec_float) := [up; up].

(** The origin, the point below it at the smallest positive binary32
    distance, 2^-149, and a third point further down. *)
Definition hair_below : Point spec_float :=
  mkPoint (f32_of_Z 0) (f32_of_Z 0) (SFopp (f32 1 (-149))).
Definition near_pair : list (Point spec_float) := [origin; hair_below; pt 1 0 (-3)].
Definition near_pair_rev : list (Point spec_float) := [pt 1 0 (-3); hair_below; origin].

(** The origin and the points (2^(16-k), 0, 2^(16-k)), k = 1..32: the ball
    tangent at the origin through the k-th of them has radius 2^(16-k). *)
Definition halving_point (k : Z) : Point spec_float :=
  mkPoint (f32 1 (16 - k)) (f32_of_Z 0) (f32 1 (16 - k)).
Definition halving_points : list (Point spec_float) :=
  origin :: map (fun k => halving_point (Z.of_nat k)) (seq 1 32).

(** (0, 0, 1/2) and (0, 0, 2^-15). *)
Definition half_up : Point spec_float := mkPoint (f32_of_Z 0) (f32_of_Z 0) (f32 1 (-1)).
Definition small_up : Point spec_float := mkPoint (f32_of_Z 0) (f32_of_Z 0) (f32 1 (-15)).

(** A point 2^127 below the origin, and the point at minus infinity below it. *)
Definition far_down : Point spec_float := pt 0 0 (- 2 ^ 127).
Definition infinitely_far_down : Point spec_float :=
  mkPoint (f32_of_Z 0) (f32_of_Z 0) (S754_infinity true).

(** The origin and a point in the tangent plane at the origin. *)
Definition tangent_pair : list (Point spec_float) := [origin; pt 1 0 0].

(** The state the first pass commits after a wrong-side reset with ceiling 10. *)
Definition reset_state : state spec_float := mkState 1 (f32_of_Z 10) (pt 0 0 (-10)) 1.

(** A point close to the tangent plane at the origin, (3/32, 0, 1/128), and
    a point set in which it is found in the second pass. *)
Definition grazing : Point spec_float := mkPoint (f32 3 (-5)) (f32_of_Z 0) (f32 1 (-7)).
Definition grazing_points : list (Point spec_float) := [origin; pt 1 0 1; grazing].

(** A point 2^-20 above the origin. *)
Definition close_by : Point spec_float := mkPoint (f32_of_Z 0) (f32_of_Z 0) (f32 1 (-20)).



End Scenario.

(** ** [main]: the point arrays and the file paths *)

Section Arrays.
Context {Scalar : Type}.

(** Modelled from the spec: Vrui's constructor of a Point from a pointer to
    Scalar (header not under src/), which copies the three components stored
    from the given address on; nothing when one of them lies outside the
    array. *)
Definition point_from (carray : list Scalar) (offset : Z) : option (Point Scalar) :=
  match vec_at carray offset, vec_at carray (offset + 1), vec_at carray (offset + 2) with
  | Some x, Some y, Some z => Some (mkPoint x y z)
  | _, _, _ => None
  end.

(** [Point(&coords_carray[i*3])] (line 265): [i] is an unsigned int, so the
    product [i*3] is taken modulo 2^32. *)
Definition point_at (carray : list Scalar) (i : Z) : option (Point Scalar) :=
  point_from carray ((i * 3) mod uint_max).

(** Lines 262-265: [coords[i] = Point(&coords_carray[i*3])] for the rows
    [i, i+1, ..., i+count-1]. *)
Fixpoint load_from (carray : list Scalar) (i : Z) (count : nat)
    : option (list (Point Scalar)) :=
  match count with
  | O => Some []
  | S count' =>
    match point_at carray i, load_from carray (i + 1) count' with
    | Some x, Some rest => Some (x :: rest)
    | _, _ => None
    end
  end.

Definition load_points (carray : list Scalar) (num_points : Z)
    : option (list (Point Scalar)) :=
  load_from carray 0 (Z.to_nat num_points).

(** The components of a list of points, row after row. *)
Definition components (pts : list (Point Scalar)) : list Scalar :=
  flat_map (fun x => [px x; py x; pz x]) pts.

(** [a[k] = x] on an array of [length a] cells. A cell holds [None] until it
    is written: [new Scalar[n]] does not initialise. *)
Definition store (a : list (option Scalar)) (k : Z) (x : Scalar)
    : option (list (option Scalar)) :=
  if (0 <=? k) && (k <? Z.of_nat (length a))
  then Some (firstn (Z.to_nat k) a ++ Some x :: skipn (S (Z.to_nat k)) a)
  else None.

(** [i*3+j] (line 300): [i] and [j] are ints, and neither the product nor
    the sum may exceed INT_MAX. *)
Definition int_index (i j : Z) : option Z :=
  if (i * 3 <=? int_max) && (i * 3 + j <=? int_max) then Some (i * 3 + j) else None.

(** [ma_coords_in_carray[i*3+j] = x]. *)
Definition store_at (a : list (option Scalar)) (i j : Z) (x : Scalar)
    : option (list (option Scalar)) :=
  match int_index i j with
  | Some k => store a k x
  | None => None
  end.

(** The inner loop (lines 299-300), [j = 0, 1, 2]. *)
Definition store_point (a : list (option Scalar)) (i : Z) (x : Point Scalar)
    : option (list (option Scalar)) :=
  match store_at a i 0 (px x) with
  | Some a0 =>
    match store_at a0 i 1 (py x) with
    | Some a1 => store_at a1 i 2 (pz x)
    | None => None
    end
  | None => None
  end.

(** The outer loop (line 298), from row [i] on. *)
Fixpoint store_rows (pts : list (Point Scalar)) (i : Z) (a : list (option Scalar))
    : option (list (option Scalar)) :=
  match pts with
  | [] => Some a
  | x :: rest =>
    match store_point a i x with
    | Some a' => store_rows rest (i + 1) a'
    | None => None
    end
  end.

(** Lines 297-300: the array of [num_points*3] cells, the product taken in
    unsigned int, filled row by row. *)
Definition flatten_points (pts : list (Point Scalar)) (num_points : Z)
    : option (list (option Scalar)) :=
  store_rows pts 0 (repeat None (Z.to_nat ((num_points * 3) mod uint_max))).

End Arrays.

Module Paths.
Import Ascii String.
Local Open Scope string_scope.

Definition backslash : ascii := ascii_of_nat 92.
Definition slash : ascii := ascii_of_nat 47.

(** [std::replace(s.begin(), s.end(), backslash, slash)]. *)
Fixpoint replace_backslash (s : string) : string :=
  match s with
  | EmptyString => EmptyString
  | String ch rest =>
      String (if Ascii.eqb ch backslash then slash else ch) (replace_backslash rest)
  end.

(** Whether a backslash occurs in a string. *)
Fixpoint has_backslash (s : string) : bool :=
  match s with
  | EmptyString => false
  | String ch rest => Ascii.eqb ch backslash || has_backslash rest
  end.

Record file_paths : Type := mkPaths {
  input_coords_path : string;
  input_normals_path : string;
  output_path_ma_in : string;
  output_path_ma_out : string;
  output_path_ma_q_in : string;
  output_path_ma_q_out : string
}.

(** Lines 227-240 of [main]: the six file names, from the input directory and
    the output directory ([None] when the output argument is not set). *)
Definition main_paths (input : string) (output : option string) : file_paths :=
  let output_path :=
    replace_backslash (match output with Some o => o | None => input end) in
  mkPaths (replace_backslash (input ++ "/coords.npy"))
          (replace_backslash (input ++ "/normals.npy"))
          (output_path ++ "/ma_coords_in.npy")
          (output_path ++ "/ma_coords_out.npy")
          (output_path ++ "/ma_qidx_in.npy")
          (output_path ++ "/ma_qidx_out.npy").

Definition all_paths (f : file_paths) : list string :=
  [input_coords_path f; input_normals_path f; output_path_ma_in f;
   output_path_ma_out f; output_path_ma_q_in f; output_path_ma_q_out f].

End Paths.

(** * Properties *)

(** ** One pass through the body *)

Section Body.
Context {Scalar Double : Type} {A : Arith Scalar Double}.
Variable cfg : Config Scalar Double.
Variables (p : Point Scalar) (n : Vector Scalar) (kd_tree : KDTree Scalar).

Ltac split_ifs :=
  repeat match goal with
         | |- context [if ?b then _ else _] => destruct b eqn:?
         end.

Ltac split_ifs_in H :=
  repeat match type of H with
         | context [if ?b then _ else _] => destruct b eqn:?
         end.

(** What the tail of the body can do: commit the candidate, or stop on one of
    the four tests it holds. *)
Lemma settle_next (st st' : state Scalar) (qidx_next : Z) (q : Point Scalar) (r : Scalar) :
  settle cfg p n st qidx_next q r = Next st' ->
  st' = mkState ((j st + 1) mod uint_max) r (pt_sub_vec p (vec_scale n r)) qidx_next
  /\ (iteration_limit <? j st) = false
  /\ s_ltb (s_abs (s_sub (r_previous st) r)) delta_convergance = false.
Proof.
  unfold settle. intros H. split_ifs_in H; try discriminate.
  injection H as <-. auto.
Qed.

Lemma settle_stop (st : state Scalar) (qidx_next : Z) (q : Point Scalar) (r : Scalar)
    (why : stop) (res : ma_result Scalar) :
  settle cfg p n st qidx_next q r = Stop why res ->
  res_qidx res = qidx st
  /\ ((why = DenoisePreserve \/ why = Converged \/ why = IterationLimit) /\ res_c res = c st
      \/ why = DenoisePlanar /\ res_c res = ceiling_center cfg p n /\ j st = 0).
Proof.
  unfold settle. intros H. split_ifs_in H; try discriminate;
    injection H as <- <-; simpl; split; auto.
  right. repeat split; auto.
  repeat match goal with
         | E : (_ && _) = true |- _ => apply andb_prop in E; destruct E
         end.
  now apply Z.eqb_eq.
Qed.

Lemma settle_no_fault (st : state Scalar) (qidx_next : Z) (q : Point Scalar) (r : Scalar) :
  settle cfg p n st qidx_next q r <> Fault.
Proof. unfold settle. split_ifs; discriminate. Qed.

(** With both denoising rules off, only convergence and the cap stop the tail. *)
Lemma settle_plain (st : state Scalar) (qidx_next : Z) (q : Point Scalar) (r : Scalar) :
  d_nonzero (denoise_preserve cfg) = false ->
  d_nonzero (denoise_planar cfg) = false ->
  s_ltb (s_abs (s_sub (r_previous st) r)) delta_convergance = false ->
  (iteration_limit <? j st) = false ->
  settle cfg p n st qidx_next q r
  = Next (mkState ((j st + 1) mod uint_max) r (pt_sub_vec p (vec_scale n r)) qidx_next).
Proof.
  intros Hp Hl Hc Hj. unfold settle. rewrite Hp, Hl, Hc, Hj. reflexivity.
Qed.

(** The radius a pass commits is the ceiling (after the wrong-side reset) or a
    candidate that passed both guards. *)
Lemma shrink_next (st st' : state Scalar) (qidx_next : Z) (q : Point Scalar) :
  shrink cfg p n st qidx_next q = Next st' ->
  exists r,
    st' = mkState ((j st + 1) mod uint_max) r (pt_sub_vec p (vec_scale n r)) qidx_next
    /\ (iteration_limit <? j st) = false
    /\ (r = initial_radius cfg
        \/ s_ltb r s_zero = false /\ s_ltb (initial_radius cfg) r = false).
Proof.
  unfold shrink. intros H. split_ifs_in H; try discriminate;
    apply settle_next in H; destruct H as (-> & Hj & _); eexists; split; eauto.
Qed.

Lemma shrink_stop (st : state Scalar) (qidx_next : Z) (q : Point Scalar)
    (why : stop) (res : ma_result Scalar) :
  shrink cfg p n st qidx_next q = Stop why res ->
  res_qidx res = qidx st
  /\ ((why = DenoisePreserve \/ why = Converged \/ why = IterationLimit) /\ res_c res = c st
      \/ (why = Ceiling \/ why = DenoisePlanar) /\ res_c res = ceiling_center cfg p n).
Proof.
  unfold shrink. intros H. split_ifs_in H.
  - apply settle_stop in H. intuition.
  - injection H as <- <-. simpl. intuition.
  - apply settle_stop in H. intuition.
Qed.

Lemma shrink_no_fault (st : state Scalar) (qidx_next : Z) (q : Point Scalar) :
  shrink cfg p n st qidx_next q <> Fault.
Proof. unfold shrink. split_ifs; try discriminate; apply settle_no_fault. Qed.

(** A pass that commits took its neighbour from the query result: either the
    nearest entry, which is not [p], or the second entry after a nearest entry
    that is [p]. *)
Lemma sb_body_next (st st' : state Scalar) :
  sb_body cfg p n kd_tree st = Next st' ->
  exists r,
    j st' = (j st + 1) mod uint_max
    /\ r_previous st' = r
    /\ c st' = pt_sub_vec p (vec_scale n r)
    /\ (iteration_limit <? j st) = false
    /\ (r = initial_radius cfg
        \/ s_ltb r s_zero = false /\ s_ltb (initial_radius cfg) r = false)
    /\ exists res0 q0,
         vec_at (n_nearest kd_tree (c st) 2) 0 = Some res0
         /\ vec_at (the_data kd_tree) (idx res0) = Some q0
         /\ (pt_eqb q0 p = false /\ qidx st' = idx res0
             \/ pt_eqb q0 p = true
                /\ exists res1 q1,
                     vec_at (n_nearest kd_tree (c st) 2) 1 = Some res1
                     /\ vec_at (the_data kd_tree) (idx res1) = Some q1
                     /\ qidx st' = idx res1).
Proof.
  unfold sb_body. intros H.
  destruct (vec_at (n_nearest kd_tree (c st) 2) 0) as [res0|] eqn:E0; [|discriminate].
  destruct (vec_at (the_data kd_tree) (idx res0)) as [q0|] eqn:D0; [|discriminate].
  destruct (pt_eqb q0 p) eqn:Eq.
  - destruct (s_eqb (r_previous st) (initial_radius cfg)); [discriminate|].
    destruct (vec_at (n_nearest kd_tree (c st) 2) 1) as [res1|] eqn:E1; [|discriminate].
    destruct (vec_at (the_data kd_tree) (idx res1)) as [q1|] eqn:D1; [|discriminate].
    apply shrink_next in H. destruct H as (r & -> & Hj & Hr).
    exists r. simpl. repeat split; auto.
    exists res0, q0. repeat split; auto. right. split; auto. exists res1, q1. auto.
  - apply shrink_next in H. destruct H as (r & -> & Hj & Hr).
    exists r. simpl. repeat split; auto.
    exists res0, q0. repeat split; auto.
Qed.

(** No [break] writes [qidx]; the convergence test, the cap and the
    edge-preserving rule leave [c] alone as well, the other three overwrite it. *)
Lemma sb_body_stop (st : state Scalar) (why : stop) (res : ma_result Scalar) :
  sb_body cfg p n kd_tree st = Stop why res ->
  res_qidx res = qidx st
  /\ ((why = DenoisePreserve \/ why = Converged \/ why = IterationLimit) /\ res_c res = c st
      \/ (why = SelfMatch \/ why = Ceiling \/ why = DenoisePlanar)
         /\ res_c res = ceiling_center cfg p n).
Proof.
  unfold sb_body. intros H.
  destruct (vec_at (n_nearest kd_tree (c st) 2) 0) as [res0|]; [|discriminate].
  destruct (vec_at (the_data kd_tree) (idx res0)) as [q0|]; [|discriminate].
  destruct (pt_eqb q0 p).
  - destruct (s_eqb (r_previous st) (initial_radius cfg)).
    + injection H as <- <-. simpl. intuition.
    + destruct (vec_at (n_nearest kd_tree (c st) 2) 1) as [res1|]; [|discriminate].
      destruct (vec_at (the_data kd_tree) (idx res1)) as [q1|]; [|discriminate].
      apply shrink_stop in H. intuition.
  - apply shrink_stop in H. intuition.
Qed.

(** The self-match branch: the nearest entry is [p] and the previous radius is
    the ceiling. Nothing beyond the first entry of the result is looked at. *)
Lemma self_match_finalizes (st : state Scalar) (res0 : KDTreeResult Scalar)
    (rest : list (KDTreeResult Scalar)) (q : Point Scalar) :
  n_nearest kd_tree (c st) 2 = res0 :: rest ->
  vec_at (the_data kd_tree) (idx res0) = Some q ->
  pt_eqb q p = true ->
  s_eqb (r_previous st) (initial_radius cfg) = true ->
  sb_body cfg p n kd_tree st
  = Stop SelfMatch (mkResultMA
                      (if nan_for_initr cfg then nanPoint
                       else pt_sub_vec p (vec_scale n (initial_radius cfg)))
                      (qidx st)).
Proof.
  intros Hq Hd He Hr. unfold sb_body. rewrite Hq. simpl. rewrite Hd, He, Hr. reflexivity.
Qed.

(** A pass faults only by reading an entry the query result or the point array
    does not have. *)
Lemma sb_body_fault (st : state Scalar) :
  sb_body cfg p n kd_tree st = Fault ->
  (2 <= length (n_nearest kd_tree (c st) 2))%nat ->
  ~ results_valid kd_tree (n_nearest kd_tree (c st) 2).
Proof.
  unfold sb_body, results_valid, in_range. intros H Hlen [Hall _].
  destruct (n_nearest kd_tree (c st) 2) as [|res0 [|res1 rest]]; simpl in Hlen; try lia.
  inversion Hall as [|? ? H0 Hall']; subst. inversion Hall' as [|? ? H1 _]; subst.
  assert (Hat : forall i, 0 <= i < Z.of_nat (length (the_data kd_tree)) ->
                          vec_at (the_data kd_tree) i <> None).
  { intros i Hi. unfold vec_at. destruct (Z.ltb_spec i 0); [lia|].
    apply nth_error_Some. lia. }
  change (vec_at (res0 :: res1 :: rest) 0) with (Some res0) in H.
  change (vec_at (res0 :: res1 :: rest) 1) with (Some res1) in H.
  cbv beta iota in H.
  destruct (vec_at (the_data kd_tree) (idx res0)) as [q0|] eqn:D0;
    [|now apply (Hat _ H0)].
  destruct (pt_eqb q0 p).
  - destruct (s_eqb (r_previous st) (initial_radius cfg)); [discriminate|].
    destruct (vec_at (the_data kd_tree) (idx res1)) as [q1|] eqn:D1;
      [|now apply (Hat _ H1)].
    now apply shrink_no_fault in H.
  - now apply shrink_no_fault in H.
Qed.

(** The body is the choice of the neighbour followed by the radius and its
    guards. *)
Lemma sb_body_closest (st : state Scalar) :
  sb_body cfg p n kd_tree st
  = match closest_point cfg p kd_tree st with
    | Found qidx_next q => shrink cfg p n st qidx_next q
    | OwnPoint => Stop SelfMatch (mkResultMA (ceiling_center cfg p n) (qidx st))
    | OutOfRange => Fault
    end.
Proof.
  unfold sb_body, closest_point.
  destruct (vec_at (n_nearest kd_tree (c st) 2) 0) as [res0|]; [|reflexivity].
  destruct (vec_at (the_data kd_tree) (idx res0)) as [q0|]; [|reflexivity].
  destruct (pt_eqb q0 p); [|reflexivity].
  destruct (s_eqb (r_previous st) (initial_radius cfg)); [reflexivity|].
  destruct (vec_at (n_nearest kd_tree (c st) 2) 1) as [res1|]; [|reflexivity].
  destruct (vec_at (the_data kd_tree) (idx res1)) as [q1|]; reflexivity.
Qed.

(** The neighbour chosen is the point stored at the index chosen. *)
Lemma closest_point_found (st : state Scalar) (qidx_next : Z) (q : Point Scalar) :
  closest_point cfg p kd_tree st = Found qidx_next q ->
  vec_at (the_data kd_tree) qidx_next = Some q.
Proof.
  unfold closest_point. intros H.
  destruct (vec_at (n_nearest kd_tree (c st) 2) 0) as [res0|]; [|discriminate].
  destruct (vec_at (the_data kd_tree) (idx res0)) as [q0|] eqn:D0; [|discriminate].
  destruct (pt_eqb q0 p).
  - destruct (s_eqb (r_previous st) (initial_radius cfg)); [discriminate|].
    destruct (vec_at (n_nearest kd_tree (c st) 2) 1) as [res1|]; [|discriminate].
    destruct (vec_at (the_data kd_tree) (idx res1)) as [q1|] eqn:D1; [|discriminate].
    injection H as <- <-. exact D1.
  - injection H as <- <-. exact D0.
Qed.

(** What a commit stores: the index of the neighbour, the next counter, the
    centre of the radius it keeps, and as radius the ceiling when the
    candidate was negative, else the candidate, which then passed both
    guards. *)
Lemma shrink_commit (st st' : state Scalar) (qidx_next : Z) (q : Point Scalar) :
  shrink cfg p n st qidx_next q = Next st' ->
  qidx st' = qidx_next
  /\ j st' = (j st + 1) mod uint_max
  /\ c st' = pt_sub_vec p (vec_scale n (r_previous st'))
  /\ (s_ltb (compute_radius p n q) s_zero = true
      /\ r_previous st' = initial_radius cfg
      \/ s_ltb (compute_radius p n q) s_zero = false
         /\ s_ltb (initial_radius cfg) (compute_radius p n q) = false
         /\ r_previous st' = compute_radius p n q).
Proof.
  unfold shrink. intros H.
  destruct (s_ltb (compute_radius p n q) s_zero) eqn:Hneg.
  - apply settle_next in H. destruct H as (-> & _).
    cbn [qidx j c r_previous]. repeat split. left. split; reflexivity.
  - destruct (s_ltb (initial_radius cfg) (compute_radius p n q)) eqn:Hbig; [discriminate|].
    apply settle_next in H. destruct H as (-> & _).
    cbn [qidx j c r_previous]. repeat split. right. repeat split; reflexivity.
Qed.

Lemma sb_body_commit (st st' : state Scalar) :
  sb_body cfg p n kd_tree st = Next st' ->
  exists q,
    closest_point cfg p kd_tree st = Found (qidx st') q
    /\ j st' = (j st + 1) mod uint_max
    /\ c st' = pt_sub_vec p (vec_scale n (r_previous st'))
    /\ (s_ltb (compute_radius p n q) s_zero = true
        /\ r_previous st' = initial_radius cfg
        \/ s_ltb (compute_radius p n q) s_zero = false
           /\ s_ltb (initial_radius cfg) (compute_radius p n q) = false
           /\ r_previous st' = compute_radius p n q).
Proof.
  rewrite sb_body_closest. intros H.
  destruct (closest_point cfg p kd_tree st) as [qidx_next q| |]; try discriminate.
  apply shrink_commit in H. destruct H as (<- & Hj & Hc & Hr).
  exists q. auto.
Qed.

End Body.

(** ** The loop *)

Section Loop.
Context {Scalar Double : Type} {A : Arith Scalar Double}.
Variable cfg : Config Scalar Double.
Variables (p : Point Scalar) (n : Vector Scalar) (kd_tree : KDTree Scalar).

(** A pass that commits found [j <= 30] and leaves [j + 1]: the counter never
    wraps. *)
Lemma sb_body_counter (st st' : state Scalar) :
  0 <= j st -> sb_body cfg p n kd_tree st = Next st' -> j st <= 30 /\ j st' = j st + 1.
Proof.
  intros Hj H. apply sb_body_next in H. destruct H as (r & Hj' & _ & _ & Hl & _).
  apply Z.ltb_ge in Hl. unfold iteration_limit in Hl. split; [lia|].
  rewrite Hj'. unfold uint_max. apply Z.mod_small. lia.
Qed.

(** Whatever the fuel, the body is entered at most [32 - j] times. *)
Lemma sb_loop_length (fuel : nat) : forall st,
  0 <= j st <= 31 ->
  (length (fst (sb_loop cfg fuel p n kd_tree st)) <= Z.to_nat (32 - j st))%nat.
Proof.
  induction fuel as [|fuel IH]; intros st Hj; cbn [sb_loop]; [cbn; lia|].
  destruct (sb_body cfg p n kd_tree st) as [st'| |] eqn:Hb; cbn [fst length]; try lia.
  destruct (sb_body_counter st st' (proj1 Hj) Hb) as [Hle Hj'].
  specialize (IH st'). destruct (sb_loop cfg fuel p n kd_tree st') as [visited e].
  cbn [fst length] in *. rewrite Hj' in IH. lia.
Qed.

(** [32 - j] units of fuel are enough, and more change nothing. *)
Lemma sb_loop_fuel (fuel : nat) : forall st,
  0 <= j st <= 31 -> (Z.to_nat (32 - j st) <= fuel)%nat ->
  snd (sb_loop cfg fuel p n kd_tree st) <> OutOfFuel
  /\ forall extra, sb_loop cfg (fuel + extra) p n kd_tree st = sb_loop cfg fuel p n kd_tree st.
Proof.
  induction fuel as [|fuel IH]; intros st Hj Hf; [lia|]. simpl.
  destruct (sb_body cfg p n kd_tree st) as [st'| |] eqn:Hb; simpl; try (split; [discriminate|reflexivity]).
  destruct (sb_body_counter st st' (proj1 Hj) Hb) as [Hle Hj'].
  destruct (IH st') as [Hne Hex]; [lia|lia|].
  split.
  - destruct (sb_loop cfg fuel p n kd_tree st'); assumption.
  - intros extra. rewrite (Hex extra). reflexivity.
Qed.

(** The function [sb_loop] computes a run. *)
Lemma sb_loop_runs (fuel : nat) : forall st,
  snd (sb_loop cfg fuel p n kd_tree st) <> OutOfFuel ->
  runs cfg p n kd_tree st (fst (sb_loop cfg fuel p n kd_tree st)) (snd (sb_loop cfg fuel p n kd_tree st)).
Proof.
  induction fuel as [|fuel IH]; intros st; simpl; [congruence|].
  destruct (sb_body cfg p n kd_tree st) as [st'| |] eqn:Hb; simpl; intros Hne.
  - specialize (IH st'). destruct (sb_loop cfg fuel p n kd_tree st') as [visited e].
    simpl in *. eapply runs_next; eauto.
  - now apply runs_stop.
  - now apply runs_fault.
Qed.

Lemma sb_init_counter : j (sb_init cfg p n) = 0.
Proof. reflexivity. Qed.

(** [sb_point] is the end of a run from the initial state. *)
Lemma sb_point_runs :
  runs cfg p n kd_tree (sb_init cfg p n)
       (fst (sb_run cfg 32 p n kd_tree)) (sb_point cfg p n kd_tree).
Proof.
  unfold sb_point, sb_run. apply sb_loop_runs.
  apply (sb_loop_fuel 32 (sb_init cfg p n)); rewrite sb_init_counter; simpl; lia.
Qed.

(** The states of a run start with the first one and are never empty. *)
Lemma runs_head (st : state Scalar) (visited : list (state Scalar)) (e : ending Scalar) :
  runs cfg p n kd_tree st visited e -> exists rest, visited = st :: rest.
Proof. intros H. destruct H; eauto. Qed.

Lemma last_default (T : Type) (l : list T) : forall a d d' : T,
  last (a :: l) d = last (a :: l) d'.
Proof.
  induction l as [|b l IH]; intros a d d'; [reflexivity|].
  change (last (b :: l) d = last (b :: l) d'). apply IH.
Qed.

Lemma last_in (T : Type) (l : list T) : forall a d : T, In (last (a :: l) d) (a :: l).
Proof.
  induction l as [|b l IH]; intros a d; [now left|].
  right. change (In (last (b :: l) d) (b :: l)). apply IH.
Qed.

(** The ending of a run is what the body did in the last state entered. *)
Lemma runs_last (st : state Scalar) (visited : list (state Scalar)) (e : ending Scalar) :
  runs cfg p n kd_tree st visited e ->
  match e with
  | Returned why res => sb_body cfg p n kd_tree (last visited st) = Stop why res
  | Faulted => sb_body cfg p n kd_tree (last visited st) = Fault
  | OutOfFuel => False
  end.
Proof.
  intros H. induction H as [st why res Hb|st Hb|st st' visited e Hb Hr IH]; simpl; auto.
  destruct (runs_head _ _ _ Hr) as [rest ->].
  change (last (st :: st' :: rest) st) with (last (st' :: rest) st).
  rewrite (last_default _ rest st' st st'). exact IH.
Qed.

(** A property that the first state has and every commit keeps holds of all
    the states of a run. *)
Lemma runs_invariant (I : state Scalar -> Prop) :
  (forall s s', I s -> sb_body cfg p n kd_tree s = Next s' -> I s') ->
  forall st visited e,
    runs cfg p n kd_tree st visited e -> I st -> Forall I visited.
Proof.
  intros Hstep st visited e H.
  induction H as [st why res Hb|st Hb|st st' visited e Hb Hr IH]; intros Hi.
  - constructor; auto.
  - constructor; auto.
  - constructor; eauto.
Qed.

Lemma runs_invariant_last (I : state Scalar -> Prop) :
  (forall s s', I s -> sb_body cfg p n kd_tree s = Next s' -> I s') ->
  forall st visited e,
    runs cfg p n kd_tree st visited e -> I st -> I (last visited st).
Proof.
  intros Hstep st visited e H Hi.
  pose proof (runs_invariant I Hstep st visited e H Hi) as Hall.
  destruct (runs_head _ _ _ H) as [rest ->].
  rewrite Forall_forall in Hall. apply Hall, last_in.
Qed.

(** Consecutive states of a run are linked by a commit. *)
Lemma runs_chain (st : state Scalar) (visited : list (state Scalar)) (e : ending Scalar) :
  runs cfg p n kd_tree st visited e ->
  forall k s s', nth_error visited k = Some s -> nth_error visited (S k) = Some s' ->
                 sb_body cfg p n kd_tree s = Next s'.
Proof.
  intros H. induction H as [st why res Hb|st Hb|st st' visited e Hb Hr IH]; intros k s s' Hk Hk'.
  - destruct k as [|[|k]]; discriminate.
  - destruct k as [|[|k]]; discriminate.
  - destruct (runs_head _ _ _ Hr) as [rest ->].
    destruct k as [|k].
    + simpl in Hk, Hk'. injection Hk as <-. injection Hk' as <-. assumption.
    + apply (IH k); assumption.
Qed.

(** A state in which the body stops is the last one of a run, and the run
    ends with what the body returned there. *)
Lemma runs_stops_at (st0 : state Scalar) (visited : list (state Scalar)) (e : ending Scalar) :
  runs cfg p n kd_tree st0 visited e ->
  forall st why res,
    In st visited -> sb_body cfg p n kd_tree st = Stop why res -> e = Returned why res.
Proof.
  intros H. induction H as [st0 why0 res0 Hb|st0 Hb|st0 st' visited e Hb Hr IH];
    intros st why res Hin Hstop.
  - destruct Hin as [<-|[]]. congruence.
  - destruct Hin as [<-|[]]. congruence.
  - destruct Hin as [<-|Hin]; [congruence|]. eapply IH; eauto.
Qed.

End Loop.

(** ** The comparisons of the IEEE instance *)

Section FloatOrder.

Ltac float_cases :=
  repeat match goal with
         | x : spec_float |- _ => destruct x as [[|]|[|]| |[|] ? ?]
         end;
  cbv beta iota delta [SFcompare SFltb SFeqb]; try discriminate; try reflexivity; auto.

Ltac compare_cases m1 e1 m2 e2 :=
  rewrite ?(Z.compare_antisym e1 e2);
  change (Pos.compare_cont Eq m2 m1) with (Pos.compare m2 m1);
  rewrite ?(Pos.compare_antisym m1 m2);
  change (Pos.compare_cont Eq m1 m2) with (Pos.compare m1 m2);
  destruct (e1 ?= e2); destruct (m1 ?= m2)%positive;
  cbv beta iota delta [CompOpp]; congruence.

Lemma SFltb_irrefl (x : spec_float) : SFltb x x = false.
Proof.
  unfold SFltb. float_cases; rewrite Z.compare_refl, Pos.compare_cont_refl; reflexivity.
Qed.

Lemma SFltb_ordered (x y : spec_float) :
  SFltb x y = true -> SFeqb x x = true /\ SFeqb y y = true.
Proof.
  unfold SFltb, SFeqb. float_cases; intros _;
    rewrite ?Z.compare_refl, ?Pos.compare_cont_refl; auto.
Qed.

Lemma SFltb_below_zero (x y : spec_float) :
  SFltb x y = true -> SFltb y (S754_zero false) = true -> SFltb x (S754_zero false) = true.
Proof. unfold SFltb. float_cases. Qed.

Lemma SFltb_total (x y : spec_float) :
  SFeqb x x = true -> SFeqb y y = true ->
  SFltb x y = false -> SFltb y x = false -> SFeqb x y = true.
Proof.
  unfold SFltb, SFeqb. float_cases; intros _ _; compare_cases m e m0 e0.
Qed.

Lemma SFltb_below_minus_one (x : spec_float) :
  SFltb x (IEEE.f32_of_Z (-1)) = true -> SFltb (IEEE.f32_of_Z 1) x = false.
Proof.
  change (IEEE.f32_of_Z (-1)) with (S754_finite true 8388608 (-23)).
  change (IEEE.f32_of_Z 1) with (S754_finite false 8388608 (-23)).
  unfold SFltb. float_cases.
Qed.

End FloatOrder.

#[export] Instance IEEE_laws : ArithLaws IEEE.arith.
Proof.
  constructor.
  - exact SFltb_irrefl.
  - exact SFltb_ordered.
  - exact SFltb_below_zero.
  - exact SFltb_total.
  - exact SFltb_below_minus_one.
  - repeat split; vm_compute; reflexivity.
Qed.

(** ** The exhaustive search answers as the solver expects *)

Section BruteForceFacts.
Context {Scalar Double : Type} {A : Arith Scalar Double}.

Lemma index_seq_succ (i : Z) (k : nat) :
  index_seq i (S k) = i :: index_seq (i + 1) k.
Proof.
  unfold index_seq. cbn [seq map]. rewrite Z.add_0_r. f_equal.
  rewrite <- seq_shift, map_map. apply map_ext. intros a. lia.
Qed.

Lemma index_seq_in (k : nat) : forall i x, In x (index_seq i k) <-> i <= x < i + Z.of_nat k.
Proof.
  induction k as [|k IH]; intros i x.
  - cbn. lia.
  - rewrite index_seq_succ. cbn [In]. rewrite IH. lia.
Qed.

Lemma index_seq_NoDup (k : nat) : forall i, NoDup (index_seq i k).
Proof.
  induction k as [|k IH]; intros i.
  - constructor.
  - rewrite index_seq_succ. constructor; [|apply IH].
    rewrite index_seq_in. lia.
Qed.

Lemma insert_result_perm (e : KDTreeResult Scalar) (l : list (KDTreeResult Scalar)) :
  Permutation (insert_result e l) (e :: l).
Proof.
  induction l as [|h t IH]; cbn; [reflexivity|].
  destruct (s_ltb (dis e) (dis h)); [reflexivity|].
  rewrite IH. apply perm_swap.
Qed.

Lemma scan_points_perm (qv : Point Scalar) (pts : list (Point Scalar)) :
  forall i acc,
    Permutation (map idx (scan_points pts i qv acc))
                (map idx acc ++ index_seq i (length pts)).
Proof.
  induction pts as [|x rest IH]; intros i acc; cbn [scan_points length].
  - unfold index_seq. cbn. rewrite app_nil_r. reflexivity.
  - rewrite IH, index_seq_succ.
    rewrite (Permutation_map idx (insert_result_perm _ acc)). cbn [map idx].
    apply (Permutation_middle (map idx acc) (index_seq (i + 1) (length rest)) i).
Qed.

Lemma exhaustive_tree_valid (pts : list (Point Scalar)) (qv : Point Scalar) (k : nat) :
  results_valid (exhaustive_tree pts) (n_nearest (exhaustive_tree pts) qv k).
Proof.
  pose proof (scan_points_perm qv pts 0 []) as Hp. cbn [map app] in Hp.
  unfold results_valid, in_range. cbn [exhaustive_tree n_nearest the_data].
  set (all := scan_points pts 0 qv []) in *.
  assert (Hnd : NoDup (map idx all)).
  { apply (Permutation_NoDup (Permutation_sym Hp)), index_seq_NoDup. }
  assert (Hin : Forall (fun e => 0 <= idx e < Z.of_nat (length pts)) all).
  { apply Forall_forall. intros e He.
    apply (in_map idx) in He. apply (Permutation_in _ Hp) in He.
    apply index_seq_in in He. lia. }
  rewrite <- (firstn_skipn k all) in Hnd, Hin. split.
  - apply Forall_app in Hin. tauto.
  - rewrite map_app in Hnd. now apply NoDup_app_remove_r in Hnd.
Qed.

Lemma exhaustive_tree_answers_two (pts : list (Point Scalar)) :
  (2 <= length pts)%nat -> answers_two (exhaustive_tree pts).
Proof.
  intros Hlen qv. split; [|apply exhaustive_tree_valid].
  cbn [exhaustive_tree n_nearest].
  pose proof (Permutation_length (scan_points_perm qv pts 0 [])) as Hl.
  cbn [map app] in Hl. unfold index_seq in Hl. rewrite !length_map, length_seq in Hl.
  rewrite length_firstn. lia.
Qed.

End BruteForceFacts.

(** ** The solver *)

Section Solved.
Context {Scalar Double : Type} {A : Arith Scalar Double}.
Variable cfg : Config Scalar Double.
Variables (p : Point Scalar) (n : Vector Scalar) (kd_tree : KDTree Scalar).

(** The shape of a run that returns: the last state entered is the first
    state, or the state the last commit produced; the pass that stops starts
    from it. *)
Lemma runs_shape (st : state Scalar) (visited : list (state Scalar)) (e : ending Scalar) :
  runs cfg p n kd_tree st visited e ->
  exists pre final,
    visited = pre ++ [final]
    /\ (pre = [] -> final = st)
    /\ (forall pre' s, pre = pre' ++ [s] -> sb_body cfg p n kd_tree s = Next final).
Proof.
  intros H. induction H as [st why res Hb|st Hb|st st' visited e Hb Hr IH].
  - exists [], st. repeat split; auto. intros [|x xs] y E; discriminate.
  - exists [], st. repeat split; auto. intros [|x xs] y E; discriminate.
  - destruct IH as (pre & final & -> & Hinit & Hlink).
    exists (st :: pre), final. split; [reflexivity|]. split; [discriminate|].
    intros pre' s E. destruct pre as [|x pre] using rev_ind.
    + destruct pre' as [|? [|? ?]]; try discriminate.
      injection E as <-. rewrite (Hinit eq_refl). assumption.
    + rewrite app_comm_cons in E. apply app_inj_tail in E. destruct E as [_ <-].
      eapply Hlink. reflexivity.
Qed.

(** Every state of a run from the initial state has its centre on the normal
    line through [p]. *)
Lemma runs_centre_on_line (visited : list (state Scalar)) (e : ending Scalar) :
  runs cfg p n kd_tree (sb_init cfg p n) visited e ->
  exists r, c (last visited (sb_init cfg p n)) = pt_sub_vec p (vec_scale n r).
Proof.
  intros H.
  apply (runs_invariant_last cfg p n kd_tree
           (fun s => exists r, c s = pt_sub_vec p (vec_scale n r))) with (e := e); auto.
  - intros s s' _ Hb. apply sb_body_next in Hb.
    destruct Hb as (r & _ & _ & Hc & _). eauto.
  - exists (initial_radius cfg). reflexivity.
Qed.

(** C2 (as amended). For every point, normal, tree and configuration the loop
    body of [sb_point] is entered at most 32 times, whatever fuel the loop is
    given: the cap test [j > 30] first succeeds in the pass with [j = 31].
    Fuel beyond 32 changes nothing and the fuel never runs out, so the loop
    cannot run forever. When every query finds two neighbours the call
    returns. A returned centre is the NaN sentinel (with [nan_for_initr]
    set), or [p - n * initial_radius], or [p - n * r] where [r] is the
    candidate radius [compute_radius p n q] of the point [q] stored at the
    returned feature index, a candidate that passed both guards. *)
Theorem sb_point_terminates :
  (sb_iterations cfg p n kd_tree <= 32)%nat
  /\ (forall fuel, (length (fst (sb_run cfg fuel p n kd_tree)) <= 32)%nat)
  /\ (forall extra, sb_run cfg (32 + extra) p n kd_tree = sb_run cfg 32 p n kd_tree)
  /\ sb_point cfg p n kd_tree <> OutOfFuel
  /\ (answers_two kd_tree -> exists why res, sb_point cfg p n kd_tree = Returned why res)
  /\ (forall why res, sb_point cfg p n kd_tree = Returned why res ->
        nan_for_initr cfg = true /\ res_c res = nanPoint
        \/ res_c res = pt_sub_vec p (vec_scale n (initial_radius cfg))
        \/ exists q,
             vec_at (the_data kd_tree) (res_qidx res) = Some q
             /\ s_ltb (compute_radius p n q) s_zero = false
             /\ s_ltb (initial_radius cfg) (compute_radius p n q) = false
             /\ res_c res = pt_sub_vec p (vec_scale n (compute_radius p n q))).
Proof.
  assert (Hj : 0 <= j (sb_init cfg p n) <= 31) by (rewrite sb_init_counter; lia).
  assert (Hlen : forall fuel, (length (fst (sb_run cfg fuel p n kd_tree)) <= 32)%nat).
  { intros fuel. unfold sb_run.
    pose proof (sb_loop_length cfg p n kd_tree fuel _ Hj) as H.
    rewrite sb_init_counter in H. exact H. }
  destruct (sb_loop_fuel cfg p n kd_tree 32 (sb_init cfg p n) Hj) as [Hne Hex];
    [rewrite sb_init_counter; simpl; lia|].
  pose proof sb_point_runs cfg p n kd_tree as Hrun.
  split; [exact (Hlen 32%nat)|]. split; [exact Hlen|]. split; [exact Hex|].
  split; [exact Hne|]. split.
  - intros Hans. pose proof (runs_last _ _ _ _ _ _ _ Hrun) as Hl.
    destruct (sb_point cfg p n kd_tree) as [why res| |] eqn:E; eauto.
    + exfalso. destruct (Hans (c (last (fst (sb_run cfg 32 p n kd_tree)) (sb_init cfg p n))))
        as [H2 Hv].
      exact (sb_body_fault cfg p n kd_tree _ Hl H2 Hv).
    + contradiction.
  - intros why res E. rewrite E in Hrun.
    pose proof (runs_last _ _ _ _ _ _ _ Hrun) as Hl. cbv beta iota in Hl.
    destruct (runs_shape _ _ _ Hrun) as (pre & final & Hv & Hinit & Hlink).
    rewrite Hv, last_last in Hl.
    apply sb_body_stop in Hl. destruct Hl as [Hq [[_ Hc]|[_ Hc]]].
    + destruct pre as [|s pre _] using rev_ind.
      * right. left. rewrite Hc, (Hinit eq_refl). reflexivity.
      * pose proof (Hlink pre s eq_refl) as Hb. apply sb_body_commit in Hb.
        destruct Hb as (q & Hfound & _ & Hcf & [[_ Hr]|(H0 & H1 & Hr)]).
        -- right. left. rewrite Hc, Hcf, Hr. reflexivity.
        -- right. right. exists q. rewrite Hq, Hc, Hcf, Hr.
           apply closest_point_found in Hfound. auto.
    + rewrite Hc. unfold ceiling_center.
      destruct (nan_for_initr cfg); [left; auto|right; left; reflexivity].
Qed.

(** C6 (as amended). The feature index [sb_point] returns is the [qidx] of
    the last state the loop entered: no [break] writes it (the pass that
    stops returns the [qidx] it started with, whichever of the six stops it
    takes, and also when it fell back to the second neighbour). That state is
    the initial one, whose [qidx] is -1, or the state the last commit
    produced, whose [qidx] is the index of the neighbour that pass chose on
    lines 94-119: the nearest point, or the second nearest after a
    self-match. A pass in which the wrong-side guard fired commits that index
    like any other, with the ceiling as radius. *)
Theorem feature_index_last_commit (why : stop) (res : ma_result Scalar) :
  sb_point cfg p n kd_tree = Returned why res ->
  exists pre final,
    fst (sb_run cfg 32 p n kd_tree) = pre ++ [final]
    /\ sb_body cfg p n kd_tree final = Stop why res
    /\ res_qidx res = qidx final
    /\ (pre = [] -> res_qidx res = -1)
    /\ (forall pre' s, pre = pre' ++ [s] ->
          sb_body cfg p n kd_tree s = Next final
          /\ exists q,
               closest_point cfg p kd_tree s = Found (res_qidx res) q
               /\ vec_at (the_data kd_tree) (res_qidx res) = Some q
               /\ (s_ltb (compute_radius p n q) s_zero = true
                   /\ r_previous final = initial_radius cfg
                   \/ s_ltb (compute_radius p n q) s_zero = false
                      /\ s_ltb (initial_radius cfg) (compute_radius p n q) = false
                      /\ r_previous final = compute_radius p n q)).
Proof.
  intros E. pose proof sb_point_runs cfg p n kd_tree as Hrun. rewrite E in Hrun.
  pose proof (runs_last _ _ _ _ _ _ _ Hrun) as Hl. cbv beta iota in Hl.
  destruct (runs_shape _ _ _ Hrun) as (pre & final & Hv & Hinit & Hlink).
  rewrite Hv, last_last in Hl.
  exists pre, final. split; [assumption|]. split; [assumption|].
  destruct (sb_body_stop _ _ _ _ _ _ _ Hl) as [Hq _].
  split; [assumption|]. split.
  - intros Hp. rewrite Hq, (Hinit Hp). reflexivity.
  - intros pre' s Hp. pose proof (Hlink pre' s Hp) as Hb. split; [assumption|].
    apply sb_body_commit in Hb. destruct Hb as (q & Hfound & _ & _ & Hr).
    exists q. rewrite Hq. split; [assumption|]. split; [|assumption].
    now apply closest_point_found in Hfound.
Qed.

(** C10. When [sb_point] stops on the convergence test or on the iteration
    cap, the centre it returns is the [c] of the last state entered: the
    initial centre [p - n * initial_radius] when nothing was committed, else
    the centre the last commit stored, and not the [c_next] of the pass that
    stops. The edge-preserving rule returns that centre too; the self-match,
    ceiling and planar stops return [nan_for_initr ? nanPoint :
    p - n * initial_radius] instead. *)
Theorem centre_on_convergence_or_cap (why : stop) (res : ma_result Scalar) :
  sb_point cfg p n kd_tree = Returned why res ->
  exists pre final,
    fst (sb_run cfg 32 p n kd_tree) = pre ++ [final]
    /\ sb_body cfg p n kd_tree final = Stop why res
    /\ (pre = [] -> c final = pt_sub_vec p (vec_scale n (initial_radius cfg)))
    /\ (forall pre' s, pre = pre' ++ [s] ->
          sb_body cfg p n kd_tree s = Next final
          /\ c final = pt_sub_vec p (vec_scale n (r_previous final)))
    /\ (why = Converged \/ why = IterationLimit -> res_c res = c final)
    /\ (why = DenoisePreserve -> res_c res = c final)
    /\ (why = SelfMatch \/ why = Ceiling \/ why = DenoisePlanar ->
          res_c res = if nan_for_initr cfg then nanPoint
                      else pt_sub_vec p (vec_scale n (initial_radius cfg))).
Proof.
  intros E. pose proof sb_point_runs cfg p n kd_tree as Hrun. rewrite E in Hrun.
  pose proof (runs_last _ _ _ _ _ _ _ Hrun) as Hl. cbv beta iota in Hl.
  destruct (runs_shape _ _ _ Hrun) as (pre & final & Hv & Hinit & Hlink).
  rewrite Hv, last_last in Hl.
  exists pre, final. split; [assumption|]. split; [assumption|].
  split; [intros Hp; rewrite (Hinit Hp); reflexivity|].
  split.
  { intros pre' s Hp. pose proof (Hlink pre' s Hp) as Hb. split; [assumption|].
    apply sb_body_next in Hb. destruct Hb as (r & _ & Hr & Hc & _). congruence. }
  destruct (sb_body_stop _ _ _ _ _ _ _ Hl) as [_ Hcases].
  split; [|split].
  - intros Hw. destruct Hcases as [[_ Hc]|[Hw' _]]; [exact Hc|].
    exfalso. destruct Hw as [->| ->]; destruct Hw' as [Hw'|[Hw'|Hw']]; discriminate.
  - intros ->. destruct Hcases as [[_ Hc]|[Hw' _]]; [exact Hc|].
    exfalso. destruct Hw' as [Hw'|[Hw'|Hw']]; discriminate.
  - intros Hw. destruct Hcases as [[Hw' _]|[_ Hc]]; [|exact Hc].
    exfalso. destruct Hw as [->|[->| ->]]; destruct Hw' as [Hw'|[Hw'|Hw']]; discriminate.
Qed.

End Solved.

(** ** The guards on the candidate radius *)

Section Guards.
Context {Scalar Double : Type} {A : Arith Scalar Double}.
Variable cfg : Config Scalar Double.
Variables (p : Point Scalar) (n : Vector Scalar) (kd_tree : KDTree Scalar).

(** C4 (as amended). When the candidate radius is negative the body goes on
    from the computation of [c_next] with [r = initial_radius]: the reset
    does not stop the loop and the ceiling guard is skipped. The pass then
    commits [r_previous = initial_radius], [c = p - n * initial_radius],
    [qidx = qidx_next] and the next counter, unless a denoising rule, the
    convergence test or the iteration cap stops it; with both denoising rules
    off it commits exactly when the radius has not converged and the cap is
    not reached. *)
Theorem wrong_side_reset (st : state Scalar) (qidx_next : Z) (q : Point Scalar) :
  s_ltb (compute_radius p n q) s_zero = true ->
  shrink cfg p n st qidx_next q = settle cfg p n st qidx_next q (initial_radius cfg)
  /\ (forall res, shrink cfg p n st qidx_next q <> Stop Ceiling res)
  /\ shrink cfg p n st qidx_next q <> Fault
  /\ (forall st', shrink cfg p n st qidx_next q = Next st' ->
        st' = mkState ((j st + 1) mod uint_max) (initial_radius cfg)
                      (pt_sub_vec p (vec_scale n (initial_radius cfg))) qidx_next)
  /\ (d_nonzero (denoise_preserve cfg) = false ->
      d_nonzero (denoise_planar cfg) = false ->
      s_ltb (s_abs (s_sub (r_previous st) (initial_radius cfg))) delta_convergance = false ->
      (iteration_limit <? j st) = false ->
      shrink cfg p n st qidx_next q
      = Next (mkState ((j st + 1) mod uint_max) (initial_radius cfg)
                      (pt_sub_vec p (vec_scale n (initial_radius cfg))) qidx_next)).
Proof.
  intros Hneg.
  assert (E : shrink cfg p n st qidx_next q
              = settle cfg p n st qidx_next q (initial_radius cfg)).
  { unfold shrink. rewrite Hneg. reflexivity. }
  rewrite E. repeat split.
  - intros res H. apply settle_stop in H.
    destruct H as [_ [[[H|[H|H]] _]|[H _]]]; discriminate.
  - apply settle_no_fault.
  - intros st' H. apply settle_next in H. tauto.
  - intros Hp Hl Hc Hj. now apply settle_plain.
Qed.

(** C5 (as amended). With a ceiling that is not negative, a candidate radius
    above the ceiling stops the loop in that pass: whenever the neighbour the
    pass chose has [compute_radius p n q > initial_radius], the body breaks
    with the centre [p - n * initial_radius], or the NaN sentinel when
    [nan_for_initr] is set, and with the feature index the pass started
    with; a call of [sb_point] that enters such a pass returns just that. The
    radius is compared as [compute_radius] delivers it; nothing tests the
    cosine. *)
Theorem ceiling_guard (L : ArithLaws A) (st : state Scalar) (qidx_next : Z)
    (q : Point Scalar) :
  s_ltb (initial_radius cfg) s_zero = false ->
  s_ltb (initial_radius cfg) (compute_radius p n q) = true ->
  shrink cfg p n st qidx_next q
  = Stop Ceiling
      (mkResultMA (if nan_for_initr cfg then nanPoint
                   else pt_sub_vec p (vec_scale n (initial_radius cfg)))
                  (qidx st))
  /\ (closest_point cfg p kd_tree st = Found qidx_next q ->
      sb_body cfg p n kd_tree st
      = Stop Ceiling
          (mkResultMA (if nan_for_initr cfg then nanPoint
                       else pt_sub_vec p (vec_scale n (initial_radius cfg)))
                      (qidx st))
      /\ (In st (fst (sb_run cfg 32 p n kd_tree)) ->
          sb_point cfg p n kd_tree
          = Returned Ceiling
              (mkResultMA (if nan_for_initr cfg then nanPoint
                           else pt_sub_vec p (vec_scale n (initial_radius cfg)))
                          (qidx st)))).
Proof.
  intros Hpos Hbig.
  assert (Hs : shrink cfg p n st qidx_next q
               = Stop Ceiling (mkResultMA (ceiling_center cfg p n) (qidx st))).
  { unfold shrink.
    destruct (s_ltb (compute_radius p n q) s_zero) eqn:Hneg.
    - pose proof (s_ltb_below_zero _ _ Hbig Hneg) as H.
      unfold s_zero in Hpos. congruence.
    - rewrite Hbig. reflexivity. }
  split; [exact Hs|]. intros Hfound.
  assert (Hb : sb_body cfg p n kd_tree st
               = Stop Ceiling (mkResultMA (ceiling_center cfg p n) (qidx st))).
  { rewrite sb_body_closest, Hfound. exact Hs. }
  split; [exact Hb|].
  intros Hin.
  exact (runs_stops_at cfg p n kd_tree _ _ _ (sb_point_runs cfg p n kd_tree) _ _ _ Hin Hb).
Qed.

(** C3 (as amended). With a ceiling that is not negative, a centre that
    [sb_point] returns is the NaN sentinel (only when [nan_for_initr] is
    set) or [p - n * r] for a radius [r] that is the ceiling itself or a
    candidate that passed both guards: neither [r < 0] nor
    [r > initial_radius] holds. The guards are strict, so [r = 0] is not
    excluded. *)
Theorem radius_within_guards (L : ArithLaws A) (why : stop) (res : ma_result Scalar) :
  s_ltb (initial_radius cfg) s_zero = false ->
  sb_point cfg p n kd_tree = Returned why res ->
  nan_for_initr cfg = true /\ res_c res = nanPoint
  \/ exists r, res_c res = pt_sub_vec p (vec_scale n r)
               /\ s_ltb r s_zero = false
               /\ s_ltb (initial_radius cfg) r = false.
Proof.
  intros Hpos E. pose proof sb_point_runs cfg p n kd_tree as Hrun. rewrite E in Hrun.
  pose proof (runs_last _ _ _ _ _ _ _ Hrun) as Hl. cbv beta iota in Hl.
  assert (Hc : exists r, c (last (fst (sb_run cfg 32 p n kd_tree)) (sb_init cfg p n))
                         = pt_sub_vec p (vec_scale n r)
                         /\ s_ltb r s_zero = false
                         /\ s_ltb (initial_radius cfg) r = false).
  { apply (runs_invariant_last cfg p n kd_tree
             (fun s => exists r, c s = pt_sub_vec p (vec_scale n r)
                                 /\ s_ltb r s_zero = false
                                 /\ s_ltb (initial_radius cfg) r = false))
      with (e := Returned why res); auto.
    - intros s s' _ Hb. apply sb_body_next in Hb.
      destruct Hb as (r & _ & _ & Hcs & _ & [Hr|[H0 H1]] & _); exists r;
        repeat split; auto; rewrite Hr; auto using s_ltb_irrefl.
    - exists (initial_radius cfg). repeat split; auto using s_ltb_irrefl. }
  apply sb_body_stop in Hl. destruct Hl as [_ [[_ Hr]|[_ Hr]]].
  - right. destruct Hc as (r & Hc & H0 & H1). exists r. rewrite Hr. auto.
  - rewrite Hr. unfold ceiling_center. destruct (nan_for_initr cfg); [left; auto|].
    right. exists (initial_radius cfg). repeat split; auto using s_ltb_irrefl.
Qed.

End Guards.

(** ** The feature index *)

Section FeatureIndex.
Context {Scalar Double : Type} {A : Arith Scalar Double}.
Variable cfg : Config Scalar Double.

Lemma vec_at_nth {T : Type} (l : list T) (i : Z) (x : T) :
  vec_at l i = Some x -> 0 <= i /\ nth_error l (Z.to_nat i) = Some x.
Proof.
  unfold vec_at. destruct (Z.ltb_spec i 0); [discriminate|]. auto.
Qed.

(** The index a run holds is -1 or names a point of the set other than the
    one at [own], when the tree answers with valid, distinct indices and the
    set holds no point twice. *)
Lemma runs_feature_index (kd_tree : KDTree Scalar) (n : Vector Scalar)
    (own : nat) (p : Point Scalar) (visited : list (state Scalar)) (e : ending Scalar) :
  (forall qv, results_valid kd_tree (n_nearest kd_tree qv 2)) ->
  proper_points (the_data kd_tree) ->
  distinct_points (the_data kd_tree) ->
  nth_error (the_data kd_tree) own = Some p ->
  runs cfg p n kd_tree (sb_init cfg p n) visited e ->
  let final := last visited (sb_init cfg p n) in
  qidx final = -1 \/ in_range kd_tree (qidx final) /\ qidx final <> Z.of_nat own.
Proof.
  intros Hvalid Hproper Hdistinct Hown Hrun.
  apply (runs_invariant_last cfg p n kd_tree
           (fun s => qidx s = -1 \/ in_range kd_tree (qidx s) /\ qidx s <> Z.of_nat own))
    with (e := e); auto.
  intros s s' _ Hb. right. apply sb_body_next in Hb.
  destruct Hb as (r & _ & _ & _ & _ & _ & res0 & q0 & H0 & D0 & Hcase).
  destruct (Hvalid (c s)) as [Hall Hnd].
  apply vec_at_nth in H0. destruct H0 as [_ H0]. cbn in H0.
  apply vec_at_nth in D0. destruct D0 as [Hi0 D0].
  destruct (n_nearest kd_tree (c s) 2) as [|e0 rest] eqn:Eres; [discriminate|].
  injection H0 as ->.
  inversion Hall as [|? ? Hr0 Hall']; subst.
  destruct Hcase as [[Hne ->]|[Heq (res1 & q1 & H1 & D1 & ->)]].
  - split; [assumption|]. intros Hsame.
    assert (q0 = p) as -> by (rewrite Hsame, Nat2Z.id in D0; congruence).
    rewrite (Hproper _ _ Hown) in Hne. discriminate.
  - apply vec_at_nth in H1. destruct H1 as [_ H1]. cbn in H1.
    destruct rest as [|e1 rest']; [discriminate|]. injection H1 as ->.
    inversion Hall' as [|? ? Hr1 _]; subst. split; [assumption|].
    intros Hsame. cbn in Hnd. inversion Hnd as [|? ? Hnotin _]; subst.
    destruct (Nat.eq_dec (Z.to_nat (idx res0)) own) as [Hsame0|Hdiff0].
    + apply Hnotin. left. lia.
    + rewrite (Hdistinct _ _ _ _ D0 Hown Hdiff0) in Heq. discriminate.
Qed.

(** C7 (as amended). Let the point set hold no NaN coordinate and no point
    twice, and let the tree answer every query with valid, pairwise distinct
    indices into that set. Then a feature index that [sb_points] stores in
    slot [i], when it is not -1, is an index of the set and differs from [i]. *)
Theorem feature_index_distinct (points : list (Point Scalar))
    (normals : list (Vector Scalar)) (kd_tree : KDTree Scalar) (inner : bool)
    (i : nat) (why : stop) (res : ma_result Scalar) :
  the_data kd_tree = points ->
  (forall qv, results_valid kd_tree (n_nearest kd_tree qv 2)) ->
  proper_points points ->
  distinct_points points ->
  nth_error (sb_points cfg points normals kd_tree inner) i = Some (Returned why res) ->
  res_qidx res <> -1 ->
  0 <= res_qidx res < Z.of_nat (length points) /\ res_qidx res <> Z.of_nat i.
Proof.
  intros Hdata Hvalid Hproper Hdistinct Hslot Hset. unfold sb_points in Hslot.
  rewrite nth_error_map in Hslot.
  rewrite nth_error_seq in Hslot.
  destruct (Nat.ltb_spec i (length points)) as [Hi|Hi]; [|discriminate].
  cbn [option_map Nat.add] in Hslot.
  destruct (nth_error points i) as [p|] eqn:Hp; [|discriminate].
  destruct (nth_error normals i) as [n0|]; [|discriminate].
  injection Hslot as Hslot.
  set (n := if inner then n0 else vec_neg n0) in *.
  pose proof sb_point_runs cfg p n kd_tree as Hrun. rewrite Hslot in Hrun.
  pose proof (runs_last _ _ _ _ _ _ _ Hrun) as Hl. cbv beta iota in Hl.
  apply sb_body_stop in Hl. destruct Hl as [Hq _].
  subst points.
  pose proof (runs_feature_index kd_tree n i p _ _ Hvalid Hproper Hdistinct Hp Hrun) as H.
  cbv zeta in H. rewrite <- Hq in H. unfold in_range in H. tauto.
Qed.

End FeatureIndex.

(** ** The geometry primitives *)

Section Primitives.
Context {Scalar Double : Type} {A : Arith Scalar Double}.

(** C9 (as amended). [cos_angle u v] is the quotient
    [u.v / (|u| |v|)] clamped from both sides: it is exactly 1 when the
    quotient exceeds 1, exactly -1 when the quotient is below -1, and the
    quotient itself when neither test succeeds. Whenever the quotient is a
    number the result lies in [-1, 1], the domain of the arccosine. A
    quotient that is NaN (a zero-length or NaN operand) fails both tests and
    is returned as it is. *)
Theorem cos_angle_clamped (L : ArithLaws A) (u v : Vector Scalar) :
  (s_ltb s_one (cos_angle_raw u v) = true -> cos_angle u v = s_one)
  /\ (s_ltb (cos_angle_raw u v) s_minus_one = true -> cos_angle u v = s_minus_one)
  /\ (s_ltb s_one (cos_angle_raw u v) = false ->
      s_ltb (cos_angle_raw u v) s_minus_one = false ->
      cos_angle u v = cos_angle_raw u v)
  /\ (s_eqb (cos_angle_raw u v) (cos_angle_raw u v) = true ->
      in_acos_domain (cos_angle u v) = true)
  /\ (s_eqb (cos_angle_raw u v) (cos_angle_raw u v) = false ->
      cos_angle u v = cos_angle_raw u v).
Proof.
  destruct (@s_units _ _ A L) as (H11 & Hmm & Hm1).
  unfold cos_angle, in_acos_domain, s_leb, s_one, s_minus_one.
  set (raw := cos_angle_raw u v).
  split; [intros ->; reflexivity|]. split.
  { intros Hlow. rewrite (s_below_minus_one _ Hlow), Hlow. reflexivity. }
  split; [intros -> ->; reflexivity|].
  split.
  - intros Hnum. destruct (s_ltb (s_of_int 1) raw) eqn:Hhi.
    + rewrite Hm1, (s_ltb_irrefl (s_of_int 1)), H11. reflexivity.
    + destruct (s_ltb raw (s_of_int (-1))) eqn:Hlo.
      * rewrite (s_ltb_irrefl (s_of_int (-1))), Hmm, Hm1. reflexivity.
      * apply andb_true_intro. split.
        -- destruct (s_ltb (s_of_int (-1)) raw) eqn:Hl; [reflexivity|].
           apply (s_ltb_total _ _ Hmm Hnum Hl Hlo).
        -- destruct (s_ltb raw (s_of_int 1)) eqn:Hl; [reflexivity|].
           apply (s_ltb_total _ _ Hnum H11 Hl Hhi).
  - intros Hnan.
    destruct (s_ltb (s_of_int 1) raw) eqn:Hhi.
    { apply s_ltb_ordered in Hhi. destruct Hhi as [_ Hhi]. congruence. }
    destruct (s_ltb raw (s_of_int (-1))) eqn:Hlo; [|reflexivity].
    apply s_ltb_ordered in Hlo. destruct Hlo as [Hlo _]. congruence.
Qed.

End Primitives.

Section RadiusGeometry.
Local Open Scope R_scope.




Context {Scalar Double : Type} {A : Arith Scalar Double}.
Variables (sval : Scalar -> R) (dval : Double -> R).


End RadiusGeometry.

(** ** Runs on concrete inputs *)

Section FirstPass.
Context {Scalar Double : Type} {A : Arith Scalar Double}.
Variable cfg : Config Scalar Double.
Variables (p : Point Scalar) (n : Vector Scalar) (kd_tree : KDTree Scalar).

(** In the first pass [r_previous] is 0. If the only entry of the query result
    is [p] itself and the ceiling is not 0, the body takes the branch that
    reads [result[1]], which the result does not have. *)
Lemma first_pass_reads_second (res0 : KDTreeResult Scalar) (q : Point Scalar) :
  n_nearest kd_tree (c (sb_init cfg p n)) 2 = [res0] ->
  vec_at (the_data kd_tree) (idx res0) = Some q ->
  pt_eqb q p = true ->
  s_eqb s_zero (initial_radius cfg) = false ->
  sb_point cfg p n kd_tree = Faulted.
Proof.
  intros Hq Hd He Hr.
  assert (Hb : sb_body cfg p n kd_tree (sb_init cfg p n) = Fault).
  { unfold sb_body. rewrite Hq.
    change (vec_at [res0] 0) with (Some res0). cbv beta iota.
    rewrite Hd, He.
    change (r_previous (sb_init cfg p n)) with s_zero. rewrite Hr. reflexivity. }
  unfold sb_point, sb_run. change 32%nat with (S 31).
  cbn [sb_loop]. rewrite Hb. reflexivity.
Qed.

End FirstPass.

Import IEEE Scenario.

(** C1. On a point set of one point, with the default ceiling of 200, the
    query from the initial centre returns a single entry, the point itself;
    [r_previous] is still 0, so the first pass does not take the self-match
    stop but indexes the second entry of the result, which does not exist:
    the call faults instead of returning the ceiling fallback. *)
Theorem single_point_reads_past_result :
  n_nearest (exhaustive_tree single_point) (c (sb_init (default_config 200) origin up)) 2
  = [mkResult (f32_of_Z 40000) 0]
  /\ s_eqb (r_previous (sb_init (default_config 200) origin up))
           (initial_radius (default_config 200)) = false
  /\ sb_body (default_config 200) origin up (exhaustive_tree single_point)
             (sb_init (default_config 200) origin up) = Fault
  /\ sb_point (default_config 200) origin up (exhaustive_tree single_point) = Faulted.
Proof. repeat split; vm_compute; reflexivity. Qed.

(** C2, counterexample: on the origin with normal (0,0,-1), ceiling 65536 and
    the 32 points of [halving_points], the body is entered 32 times (the
    radius halves in every pass and the cap stops the 32nd); 31 passes do not
    finish the call. And for a point 2^127 below the origin with ceiling
    2^127 the centre [p - n * initial_radius] overflows: the centre returned
    has an infinite coordinate, so it is neither finite nor the sentinel. *)
Lemma thirty_two_passes :
  sb_iterations (default_config 65536) origin down (exhaustive_tree halving_points) = 32%nat
  /\ sb_point (default_config 65536) origin down (exhaustive_tree halving_points)
     = Returned IterationLimit (mkResultMA small_up 31)
  /\ snd (sb_run (default_config 65536) 31 origin down (exhaustive_tree halving_points))
     = OutOfFuel
  /\ sb_point (default_config (2 ^ 127)) far_down up (exhaustive_tree [far_down; origin])
     = Returned SelfMatch (mkResultMA infinitely_far_down 1).
Proof. repeat split; vm_compute; reflexivity. Qed.

(** C3, counterexample: with ceiling 200, a second point 2^-149 below the
    origin and a third at (1,0,-3), the candidate radius for the second point
    is 0, and [sb_point] returns the origin itself as centre, a ball of
    radius 0, whichever way the set is ordered. *)
Lemma zero_radius_returned :
  compute_radius origin up hair_below = S754_zero false
  /\ sb_point (default_config 200) origin up (exhaustive_tree near_pair)
  = Returned Converged (mkResultMA origin 1)
  /\ sb_point (default_config 200) origin up (exhaustive_tree near_pair_rev)
     = Returned Converged (mkResultMA origin 1).
Proof. repeat split; vm_compute; reflexivity. Qed.

(** C4, counterexample: p = (0,0,0), n = (0,0,1), q = (0,0,1), ceiling 10 and
    the default thresholds. The candidate radius is negative and is reset,
    and the planar rule stops the loop in that same pass. *)
Lemma wrong_side_then_stop :
  s_ltb (compute_radius origin up (pt 0 0 1)) s_zero = true
  /\ shrink (default_config 10) origin up (sb_init (default_config 10) origin up) 1 (pt 0 0 1)
     = Stop DenoisePlanar (mkResultMA (pt 0 0 (-10)) (-1))
  /\ sb_body (default_config 10) origin up (exhaustive_tree two_points)
             (sb_init (default_config 10) origin up)
     = Stop DenoisePlanar (mkResultMA (pt 0 0 (-10)) (-1)).
Proof. repeat split; vm_compute; reflexivity. Qed.

(** C5, counterexample: with the ceiling -10 ([-r -10]) the candidate radius
    -0.5 of the spec's two points exceeds the ceiling, yet the pass does not
    stop: the wrong-side guard takes it first, the pass commits the index of
    the neighbour, and the call goes on to a second pass, which converges. *)
Lemma negative_ceiling_commits :
  s_ltb (initial_radius (plain_config (-10))) (compute_radius origin up (pt 0 0 1)) = true
  /\ closest_point (plain_config (-10)) origin (exhaustive_tree two_points)
                   (sb_init (plain_config (-10)) origin up)
     = Found 1 (pt 0 0 1)
  /\ sb_body (plain_config (-10)) origin up (exhaustive_tree two_points)
             (sb_init (plain_config (-10)) origin up)
     = Next (mkState 1 (f32_of_Z (-10)) (pt 0 0 10) 1)
  /\ sb_iterations (plain_config (-10)) origin up (exhaustive_tree two_points) = 2%nat
  /\ sb_point (plain_config (-10)) origin up (exhaustive_tree two_points)
     = Returned Converged (mkResultMA (pt 0 0 10) 1).
Proof. repeat split; vm_compute; reflexivity. Qed.

(** C6, counterexample: p = (0,0,0), n = (0,0,1), q = (0,0,1), ceiling 10,
    denoising off. The first pass falls back to the second nearest point,
    the wrong-side guard fires, and the pass does not stop: it commits, and
    the feature index goes from -1 to 1, the index the call returns. *)
Lemma wrong_side_commits_index :
  closest_point (plain_config 10) origin (exhaustive_tree two_points)
                (sb_init (plain_config 10) origin up)
  = Found 1 (pt 0 0 1)
  /\ s_ltb (compute_radius origin up (pt 0 0 1)) s_zero = true
  /\ qidx (sb_init (plain_config 10) origin up) = -1
  /\ sb_body (plain_config 10) origin up (exhaustive_tree two_points)
             (sb_init (plain_config 10) origin up)
     = Next reset_state
  /\ qidx reset_state = 1
  /\ sb_point (plain_config 10) origin up (exhaustive_tree two_points)
     = Returned SelfMatch (mkResultMA (pt 0 0 (-10)) 1).
Proof. repeat split; vm_compute; reflexivity. Qed.

(** C7, counterexample: when the set holds the same point twice, [sb_points]
    stores the feature index 1 in slot 1; and with the tree that orders equal
    distances the other way, the feature index 0 in slot 0. *)
Lemma stored_twice_own_index :
  nth_error (sb_points (default_config 200) twice twice_normals (exhaustive_tree twice) true) 1
  = Some (Returned IterationLimit (mkResultMA nanPoint 1))
  /\ nth_error (sb_points (default_config 200) twice twice_normals
                          (exhaustive_tree_late twice) true) 0
     = Some (Returned IterationLimit (mkResultMA nanPoint 0)).
Proof. split; vm_compute; reflexivity. Qed.




(** C9, counterexample: for a zero-length vector the quotient is 0/0, and
    [cos_angle] returns that NaN, which is not in [-1, 1]. *)
Lemma cos_angle_of_zero_vector :
  cos_angle (vec 0 0 0) (vec 1 0 0) = S754_nan
  /\ in_acos_domain (cos_angle (vec 0 0 0) (vec 1 0 0)) = false.
Proof. split; vm_compute; reflexivity. Qed.

(** ** The theorems at concrete inputs *)

Lemma two_points_proper : proper_points two_points.
Proof.
  intros [|[|a]] pa H; cbn in H; try (injection H as <-; vm_compute; reflexivity).
  destruct a; discriminate.
Qed.

Lemma two_points_distinct : distinct_points two_points.
Proof.
  intros [|[|a]] [|[|b]] pa pb Ha Hb Hab; cbn in Ha, Hb;
    try (destruct a; discriminate); try (destruct b; discriminate);
    try contradiction;
    injection Ha as <-; injection Hb as <-; vm_compute; reflexivity.
Qed.

Lemma sb_point_terminates_witness :
  (exists why res,
      sb_point (default_config 10) origin down (exhaustive_tree two_points) = Returned why res)
  /\ sb_point (default_config 10) origin down (exhaustive_tree two_points)
     = Returned Converged (mkResultMA half_up 1)
  /\ (nan_for_initr (default_config 10) = true /\ half_up = nanPoint
      \/ half_up = pt_sub_vec origin (vec_scale down (initial_radius (default_config 10)))
      \/ exists q,
           vec_at (the_data (exhaustive_tree two_points)) 1 = Some q
           /\ s_ltb (compute_radius origin down q) s_zero = false
           /\ s_ltb (initial_radius (default_config 10)) (compute_radius origin down q) = false
           /\ half_up = pt_sub_vec origin (vec_scale down (compute_radius origin down q))).
Proof.
  assert (E : sb_point (default_config 10) origin down (exhaustive_tree two_points)
              = Returned Converged (mkResultMA half_up 1))
    by (vm_compute; reflexivity).
  destruct (sb_point_terminates (default_config 10) origin down (exhaustive_tree two_points))
    as (_ & _ & _ & _ & Hret & Hcentre).
  split.
  - apply Hret. apply exhaustive_tree_answers_two. apply le_n.
  - split; [exact E|]. exact (Hcentre Converged (mkResultMA half_up 1) E).
Defined.

Lemma radius_within_guards_witness :
  s_ltb (initial_radius (default_config 10)) s_zero = false
  /\ sb_point (default_config 10) origin down (exhaustive_tree two_points)
     = Returned Converged (mkResultMA half_up 1)
  /\ (nan_for_initr (default_config 10) = true /\ half_up = nanPoint
      \/ exists r, half_up = pt_sub_vec origin (vec_scale down r)
                   /\ s_ltb r s_zero = false
                   /\ s_ltb (initial_radius (default_config 10)) r = false).
Proof.
  assert (H1 : s_ltb (initial_radius (default_config 10)) s_zero = false)
    by (vm_compute; reflexivity).
  assert (H2 : sb_point (default_config 10) origin down (exhaustive_tree two_points)
               = Returned Converged (mkResultMA half_up 1))
    by (vm_compute; reflexivity).
  split; [exact H1|]. split; [exact H2|].
  exact (radius_within_guards (default_config 10) origin down (exhaustive_tree two_points)
           IEEE_laws Converged (mkResultMA half_up 1) H1 H2).
Defined.

Lemma wrong_side_reset_witness :
  s_ltb (compute_radius origin up (pt 0 0 1)) s_zero = true
  /\ shrink (plain_config 10) origin up (sb_init (plain_config 10) origin up) 1 (pt 0 0 1)
     = Next reset_state.
Proof.
  assert (H : s_ltb (compute_radius origin up (pt 0 0 1)) s_zero = true)
    by (vm_compute; reflexivity).
  split; [exact H|].
  destruct (wrong_side_reset (plain_config 10) origin up
              (sb_init (plain_config 10) origin up) 1 (pt 0 0 1) H)
    as (_ & _ & _ & _ & Hcommit).
  rewrite Hcommit; vm_compute; reflexivity.
Defined.

Lemma ceiling_guard_witness :
  compute_radius origin up (pt 1 0 0) = S754_infinity false
  /\ closest_point (default_config 200) origin (exhaustive_tree tangent_pair)
                   (sb_init (default_config 200) origin up)
     = Found 1 (pt 1 0 0)
  /\ sb_point (default_config 200) origin up (exhaustive_tree tangent_pair)
     = Returned Ceiling (mkResultMA (pt 0 0 (-200)) (-1)).
Proof.
  assert (Hfound : closest_point (default_config 200) origin (exhaustive_tree tangent_pair)
                                 (sb_init (default_config 200) origin up)
                   = Found 1 (pt 1 0 0))
    by (vm_compute; reflexivity).
  assert (Hpos : s_ltb (initial_radius (default_config 200)) s_zero = false)
    by (vm_compute; reflexivity).
  assert (Hbig : s_ltb (initial_radius (default_config 200))
                       (compute_radius origin up (pt 1 0 0)) = true)
    by (vm_compute; reflexivity).
  assert (Hin : In (sb_init (default_config 200) origin up)
                   (fst (sb_run (default_config 200) 32 origin up
                           (exhaustive_tree tangent_pair))))
    by (vm_compute; left; reflexivity).
  split; [vm_compute; reflexivity|]. split; [exact Hfound|].
  destruct (ceiling_guard (default_config 200) origin up (exhaustive_tree tangent_pair)
              IEEE_laws (sb_init (default_config 200) origin up) 1 (pt 1 0 0)
              Hpos Hbig)
    as (_ & Hpass).
  destruct (Hpass Hfound) as (_ & Hcall).
  rewrite (Hcall Hin). vm_compute. reflexivity.
Defined.

Lemma feature_index_last_commit_witness :
  sb_point (plain_config 10) origin up (exhaustive_tree two_points)
  = Returned SelfMatch (mkResultMA (pt 0 0 (-10)) 1)
  /\ exists pre final,
       fst (sb_run (plain_config 10) 32 origin up (exhaustive_tree two_points)) = pre ++ [final]
       /\ qidx final = 1.
Proof.
  assert (H : sb_point (plain_config 10) origin up (exhaustive_tree two_points)
              = Returned SelfMatch (mkResultMA (pt 0 0 (-10)) 1))
    by (vm_compute; reflexivity).
  split; [exact H|].
  destruct (feature_index_last_commit (plain_config 10) origin up (exhaustive_tree two_points)
              SelfMatch (mkResultMA (pt 0 0 (-10)) 1) H)
    as (pre & final & Hv & _ & Hq & _).
  exists pre, final. split; [exact Hv|]. symmetry. exact Hq.
Defined.

Lemma feature_index_distinct_witness :
  nth_error (sb_points (plain_config 10) two_points [up; up] (exhaustive_tree two_points) true) 0
  = Some (Returned SelfMatch (mkResultMA (pt 0 0 (-10)) 1))
  /\ 0 <= 1 < Z.of_nat (length two_points) /\ 1 <> Z.of_nat 0.
Proof.
  assert (H : nth_error (sb_points (plain_config 10) two_points [up; up]
                           (exhaustive_tree two_points) true) 0
              = Some (Returned SelfMatch (mkResultMA (pt 0 0 (-10)) 1)))
    by (vm_compute; reflexivity).
  split; [exact H|].
  apply (feature_index_distinct (plain_config 10) two_points [up; up]
           (exhaustive_tree two_points) true 0 SelfMatch (mkResultMA (pt 0 0 (-10)) 1)).
  - reflexivity.
  - intros qv. apply exhaustive_tree_valid.
  - exact two_points_proper.
  - exact two_points_distinct.
  - exact H.
  - discriminate.
Defined.



Lemma cos_angle_clamped_witness :
  s_ltb s_one (cos_angle_raw (vec 1 0 0) (vec 1 1 0)) = false
  /\ s_ltb (cos_angle_raw (vec 1 0 0) (vec 1 1 0)) s_minus_one = false
  /\ cos_angle (vec 1 0 0) (vec 1 1 0) = cos_angle_raw (vec 1 0 0) (vec 1 1 0)
  /\ in_acos_domain (cos_angle (vec 1 0 0) (vec 1 1 0)) = true.
Proof.
  assert (Hhi : s_ltb s_one (cos_angle_raw (vec 1 0 0) (vec 1 1 0)) = false)
    by (vm_compute; reflexivity).
  assert (Hlo : s_ltb (cos_angle_raw (vec 1 0 0) (vec 1 1 0)) s_minus_one = false)
    by (vm_compute; reflexivity).
  assert (Hnum : s_eqb (cos_angle_raw (vec 1 0 0) (vec 1 1 0))
                       (cos_angle_raw (vec 1 0 0) (vec 1 1 0)) = true)
    by (vm_compute; reflexivity).
  destruct (cos_angle_clamped IEEE_laws (vec 1 0 0) (vec 1 1 0))
    as (_ & _ & Hmid & Hdom & _).
  split; [exact Hhi|]. split; [exact Hlo|].
  split; [exact (Hmid Hhi Hlo)|exact (Hdom Hnum)].
Defined.

Lemma centre_on_convergence_or_cap_witness :
  sb_point (default_config 65536) origin down (exhaustive_tree halving_points)
  = Returned IterationLimit (mkResultMA small_up 31)
  /\ exists pre final,
       fst (sb_run (default_config 65536) 32 origin down (exhaustive_tree halving_points))
       = pre ++ [final]
       /\ c final = small_up.
Proof.
  assert (H : sb_point (default_config 65536) origin down (exhaustive_tree halving_points)
              = Returned IterationLimit (mkResultMA small_up 31))
    by (vm_compute; reflexivity).
  split; [exact H|].
  destruct (centre_on_convergence_or_cap (default_config 65536) origin down
              (exhaustive_tree halving_points) IterationLimit (mkResultMA small_up 31) H)
    as (pre & final & Hv & _ & _ & _ & Hc & _).
  exists pre, final. split; [exact Hv|]. symmetry. apply Hc. right. reflexivity.
Defined.

(** * Further properties of the solver *)

Section Passes.
Context {Scalar Double : Type} {A : Arith Scalar Double}.
Variable cfg : Config Scalar Double.
Variables (p : Point Scalar) (n : Vector Scalar) (kd_tree : KDTree Scalar).

Ltac split_ifs_in H :=
  repeat match type of H with
         | context [if ?b then _ else _] => destruct b eqn:?
         end.

Ltac split_ands :=
  repeat match goal with
         | E : (_ && _) = true |- _ => apply andb_prop in E; destruct E
         end.

(** What the test that stopped the tail of the body says about the counter,
    the thresholds and the radius. *)
Lemma settle_stop_test (st : state Scalar) (qidx_next : Z) (q : Point Scalar) (r : Scalar)
    (why : stop) (res : ma_result Scalar) :
  settle cfg p n st qidx_next q r = Stop why res ->
  match why with
  | IterationLimit => iteration_limit < j st
  | DenoisePlanar => j st = 0 /\ d_nonzero (denoise_planar cfg) = true
  | DenoisePreserve => 0 < j st /\ d_nonzero (denoise_preserve cfg) = true
  | Converged => s_ltb (s_abs (s_sub (r_previous st) r)) delta_convergance = true
  | SelfMatch | Ceiling => False
  end.
Proof.
  unfold settle. intros H. split_ifs_in H; try discriminate;
    injection H as <- _; split_ands; auto.
  - split; [now apply Z.ltb_lt|assumption].
  - split; [now apply Z.eqb_eq|assumption].
  - now apply Z.ltb_lt.
Qed.

Lemma sb_body_stop_test (st : state Scalar) (why : stop) (res : ma_result Scalar) :
  sb_body cfg p n kd_tree st = Stop why res ->
  match why with
  | IterationLimit => iteration_limit < j st
  | DenoisePlanar => j st = 0 /\ d_nonzero (denoise_planar cfg) = true
  | DenoisePreserve => 0 < j st /\ d_nonzero (denoise_preserve cfg) = true
  | _ => True
  end.
Proof.
  assert (Hshrink : forall qn q, shrink cfg p n st qn q = Stop why res ->
            match why with
            | IterationLimit => iteration_limit < j st
            | DenoisePlanar => j st = 0 /\ d_nonzero (denoise_planar cfg) = true
            | DenoisePreserve => 0 < j st /\ d_nonzero (denoise_preserve cfg) = true
            | _ => True
            end).
  { intros qn q H. unfold shrink in H. split_ifs_in H;
      try (apply settle_stop_test in H; destruct why; tauto).
    injection H as <- _. exact I. }
  unfold sb_body. intros H.
  destruct (vec_at (n_nearest kd_tree (c st) 2) 0) as [res0|]; [|discriminate].
  destruct (vec_at (the_data kd_tree) (idx res0)) as [q0|]; [|discriminate].
  destruct (pt_eqb q0 p).
  - destruct (s_eqb (r_previous st) (initial_radius cfg)).
    + injection H as <- _. exact I.
    + destruct (vec_at (n_nearest kd_tree (c st) 2) 1) as [res1|]; [|discriminate].
      destruct (vec_at (the_data kd_tree) (idx res1)) as [q1|]; [|discriminate].
      eapply Hshrink; eauto.
  - eapply Hshrink; eauto.
Qed.

(** One unfolding of the loop. *)
Lemma sb_loop_stop (fuel : nat) (st : state Scalar) (why : stop) (res : ma_result Scalar) :
  sb_body cfg p n kd_tree st = Stop why res ->
  sb_loop cfg (S fuel) p n kd_tree st = ([st], Returned why res).
Proof. intros H. cbn [sb_loop]. rewrite H. reflexivity. Qed.

Lemma sb_loop_next (fuel : nat) (st st' : state Scalar) :
  sb_body cfg p n kd_tree st = Next st' ->
  sb_loop cfg (S fuel) p n kd_tree st
  = (st :: fst (sb_loop cfg fuel p n kd_tree st'), snd (sb_loop cfg fuel p n kd_tree st')).
Proof.
  intros H. cbn [sb_loop]. rewrite H.
  destruct (sb_loop cfg fuel p n kd_tree st'). reflexivity.
Qed.

(** The counter of the k-th state entered is [j + k]: it counts the commits. *)
Lemma runs_counter (st : state Scalar) (visited : list (state Scalar)) (e : ending Scalar) :
  runs cfg p n kd_tree st visited e -> 0 <= j st ->
  forall k s, nth_error visited k = Some s -> j s = j st + Z.of_nat k.
Proof.
  intros H. induction H as [st why res Hb|st Hb|st st' visited e Hb Hr IH]; intros Hj k s Hk.
  - destruct k as [|[|k]]; try discriminate. injection Hk as <-. lia.
  - destruct k as [|[|k]]; try discriminate. injection Hk as <-. lia.
  - destruct (sb_body_counter cfg p n kd_tree st st' Hj Hb) as [_ Hj'].
    destruct k as [|k].
    + injection Hk as <-. lia.
    + cbn [nth_error] in Hk. rewrite (IH ltac:(lia) k s Hk). lia.
Qed.

(** A call that returns: the states entered, the last of them, and its counter. *)
Lemma sb_point_final (why : stop) (res : ma_result Scalar) :
  sb_point cfg p n kd_tree = Returned why res ->
  exists pre final,
    fst (sb_run cfg 32 p n kd_tree) = pre ++ [final]
    /\ sb_body cfg p n kd_tree final = Stop why res
    /\ j final = Z.of_nat (length pre)
    /\ sb_iterations cfg p n kd_tree = S (length pre)
    /\ (pre = [] -> final = sb_init cfg p n)
    /\ (forall pre' s, pre = pre' ++ [s] -> sb_body cfg p n kd_tree s = Next final).
Proof.
  intros E. pose proof sb_point_runs cfg p n kd_tree as Hrun. rewrite E in Hrun.
  pose proof (runs_last _ _ _ _ _ _ _ Hrun) as Hl. cbv beta iota in Hl.
  destruct (runs_shape _ _ _ _ _ _ _ Hrun) as (pre & final & Hv & Hinit & Hlink).
  rewrite Hv, last_last in Hl.
  exists pre, final. split; [assumption|]. split; [assumption|].
  split.
  { pose proof (runs_counter _ _ _ Hrun) as Hc. rewrite sb_init_counter in Hc.
    rewrite (Hc ltac:(lia) (length pre) final); [lia|].
    rewrite Hv, nth_error_app2, Nat.sub_diag; [reflexivity|lia]. }
  split.
  { unfold sb_iterations. rewrite Hv, length_app. cbn [length]. lia. }
  split; assumption.
Qed.

(** X1. The planar rule only fires in the first pass: a call that it stops has
    queried the tree once, returns the ceiling centre (or the sentinel), and
    reports no feature point. *)
Theorem planar_stop_first_pass (why : stop) (res : ma_result Scalar) :
  sb_point cfg p n kd_tree = Returned why res ->
  why = DenoisePlanar ->
  sb_iterations cfg p n kd_tree = 1%nat
  /\ res_qidx res = -1
  /\ res_c res = (if nan_for_initr cfg then nanPoint
                  else pt_sub_vec p (vec_scale n (initial_radius cfg)))
  /\ d_nonzero (denoise_planar cfg) = true.
Proof.
  intros E ->. destruct (sb_point_final _ _ E) as (pre & final & Hv & Hb & Hj & Hn & Hinit & _).
  pose proof (sb_body_stop_test _ _ _ Hb) as [H0 Hnz]. cbv beta iota in H0.
  assert (Hpre : pre = []) by (destruct pre; [reflexivity|cbn [length] in Hj; lia]).
  subst pre. specialize (Hinit eq_refl). subst final.
  apply sb_body_stop in Hb. destruct Hb as [Hq [[[H|[H|H]] _]|[_ Hc]]]; try discriminate.
  repeat split; auto.
Qed.

(** X2. A call stopped by the iteration cap has entered the body exactly 32
    times, and has committed 31 candidates. *)
Theorem iteration_limit_after_32 (why : stop) (res : ma_result Scalar) :
  sb_point cfg p n kd_tree = Returned why res ->
  why = IterationLimit ->
  sb_iterations cfg p n kd_tree = 32%nat
  /\ exists final, last (fst (sb_run cfg 32 p n kd_tree)) (sb_init cfg p n) = final
                   /\ j final = 31
                   /\ res_c res = c final /\ res_qidx res = qidx final.
Proof.
  intros E ->. destruct (sb_point_final _ _ E) as (pre & final & Hv & Hb & Hj & Hn & _ & _).
  pose proof (sb_body_stop_test _ _ _ Hb) as Hlim. cbv beta iota in Hlim.
  unfold iteration_limit in Hlim.
  pose proof (sb_loop_length cfg p n kd_tree 32 (sb_init cfg p n)) as Hlen.
  rewrite sb_init_counter in Hlen. specialize (Hlen ltac:(lia)).
  change (sb_loop cfg 32 p n kd_tree (sb_init cfg p n)) with (sb_run cfg 32 p n kd_tree) in Hlen.
  rewrite Hv, length_app in Hlen. cbn [length] in Hlen.
  assert (Hpre : length pre = 31%nat) by lia.
  split; [lia|]. exists final. rewrite Hv, last_last. split; [reflexivity|].
  split; [lia|].
  apply sb_body_stop in Hb. destruct Hb as [Hq [[_ Hc]|[[H|[H|H]] _]]]; try discriminate.
  auto.
Qed.

(** X3. The edge-preserving rule never fires in the first pass: a call that it
    stops has committed at least one candidate. The states entered end with
    [s; final], where the pass entered in [s] made the last commit of the
    call and the pass entered in [final] is the one the rule stopped; the
    call returns the centre [p - n * r_previous] and the feature index that
    last commit stored. *)
Theorem preserve_stop_after_commit (why : stop) (res : ma_result Scalar) :
  sb_point cfg p n kd_tree = Returned why res ->
  why = DenoisePreserve ->
  (2 <= sb_iterations cfg p n kd_tree)%nat
  /\ d_nonzero (denoise_preserve cfg) = true
  /\ exists pre s final,
       fst (sb_run cfg 32 p n kd_tree) = pre ++ [s; final]
       /\ sb_body cfg p n kd_tree s = Next final
       /\ sb_body cfg p n kd_tree final = Stop DenoisePreserve res
       /\ res_c res = c final
       /\ c final = pt_sub_vec p (vec_scale n (r_previous final))
       /\ res_qidx res = qidx final.
Proof.
  intros E ->. destruct (sb_point_final _ _ E) as (pre & final & Hv & Hb & Hj & Hn & _ & Hlink).
  pose proof (sb_body_stop_test _ _ _ Hb) as [Hpos Hnz]. cbv beta iota in Hpos.
  destruct pre as [|x pre] using rev_ind; [cbn [length] in Hj; lia|].
  clear IHpre. rewrite length_app in Hn. cbn [length] in Hn.
  split; [lia|]. split; [assumption|].
  pose proof (Hlink pre x eq_refl) as Hcommit.
  exists pre, x, final. rewrite <- app_assoc in Hv. split; [exact Hv|].
  split; [assumption|]. split; [assumption|].
  apply sb_body_stop in Hb. destruct Hb as [Hq [[_ Hc]|[[H|[H|H]] _]]]; try discriminate.
  apply sb_body_next in Hcommit. destruct Hcommit as (r & _ & Hr & Hcf & _).
  split; [assumption|]. split; [congruence|assumption].
Qed.

(** X4. A threshold of zero switches its rule off: no call is stopped by a rule
    whose threshold is zero. *)
Theorem zero_threshold_disables (why : stop) (res : ma_result Scalar) :
  sb_point cfg p n kd_tree = Returned why res ->
  (d_nonzero (denoise_preserve cfg) = false -> why <> DenoisePreserve)
  /\ (d_nonzero (denoise_planar cfg) = false -> why <> DenoisePlanar).
Proof.
  intros E. destruct (sb_point_final _ _ E) as (pre & final & _ & Hb & _).
  pose proof (sb_body_stop_test _ _ _ Hb) as Ht.
  split; intros Hoff ->; cbv beta iota in Ht; destruct Ht as [_ Ht]; congruence.
Qed.

(** X5. When the tree answers with valid indices, the feature index returned is
    -1 exactly when the call stopped in its first pass. *)
Theorem no_feature_iff_first_pass (why : stop) (res : ma_result Scalar) :
  (forall qv, results_valid kd_tree (n_nearest kd_tree qv 2)) ->
  sb_point cfg p n kd_tree = Returned why res ->
  (res_qidx res = -1 <-> sb_iterations cfg p n kd_tree = 1%nat).
Proof.
  intros Hvalid E.
  destruct (sb_point_final _ _ E) as (pre & final & Hv & Hb & Hj & Hn & Hinit & Hlink).
  apply sb_body_stop in Hb. destruct Hb as [Hq _]. rewrite Hq, Hn.
  destruct pre as [|x pre] using rev_ind.
  - rewrite (Hinit eq_refl). cbn. tauto.
  - clear IHpre. rewrite length_app. cbn [length]. split; [|lia].
    intros Hminus. exfalso.
    pose proof (Hlink pre x eq_refl) as Hcommit. apply sb_body_next in Hcommit.
    destruct Hcommit as (r & _ & _ & _ & _ & _ & res0 & q0 & H0 & _ & Hcase).
    destruct (Hvalid (c x)) as [Hall _]. rewrite Forall_forall in Hall.
    assert (Hat : forall i e, vec_at (n_nearest kd_tree (c x) 2) i = Some e -> 0 <= idx e).
    { intros i e He. apply vec_at_nth in He. destruct He as [_ He].
      apply nth_error_In in He. apply Hall in He. unfold in_range in He. lia. }
    destruct Hcase as [[_ Hi]|[_ (res1 & q1 & H1 & _ & Hi)]].
    + apply Hat in H0. lia.
    + apply Hat in H1. lia.
Qed.

(** X6. An isolated point, denoising off: the nearest point to the initial centre
    is [p] itself and the second nearest lies on the wrong side. The first
    pass resets the radius to the ceiling and commits, the second pass finds
    the same neighbours and takes the self-match stop: the call returns the
    ceiling centre after two passes, and the feature index it reports is the
    index of that second neighbour. *)
Theorem isolated_point_two_passes (res0 res1 : KDTreeResult Scalar)
    (rest : list (KDTreeResult Scalar)) (q0 q1 : Point Scalar) :
  n_nearest kd_tree (pt_sub_vec p (vec_scale n (initial_radius cfg))) 2
  = res0 :: res1 :: rest ->
  vec_at (the_data kd_tree) (idx res0) = Some q0 ->
  pt_eqb q0 p = true ->
  vec_at (the_data kd_tree) (idx res1) = Some q1 ->
  s_ltb (compute_radius p n q1) s_zero = true ->
  d_nonzero (denoise_preserve cfg) = false ->
  d_nonzero (denoise_planar cfg) = false ->
  s_eqb s_zero (initial_radius cfg) = false ->
  s_eqb (initial_radius cfg) (initial_radius cfg) = true ->
  s_ltb (s_abs (s_sub s_zero (initial_radius cfg))) delta_convergance = false ->
  sb_iterations cfg p n kd_tree = 2%nat
  /\ sb_point cfg p n kd_tree
     = Returned SelfMatch
         (mkResultMA (if nan_for_initr cfg then nanPoint
                      else pt_sub_vec p (vec_scale n (initial_radius cfg)))
                     (idx res1)).
Proof.
  intros Hq H0 Hself H1 Hneg Hp Hl Hzero Hnum Hfar.
  set (st1 := mkState 1 (initial_radius cfg)
                (pt_sub_vec p (vec_scale n (initial_radius cfg))) (idx res1)).
  assert (Hb0 : sb_body cfg p n kd_tree (sb_init cfg p n) = Next st1).
  { unfold sb_body.
    change (c (sb_init cfg p n)) with (pt_sub_vec p (vec_scale n (initial_radius cfg))).
    rewrite Hq.
    change (vec_at (res0 :: res1 :: rest) 0) with (Some res0).
    change (vec_at (res0 :: res1 :: rest) 1) with (Some res1). cbv beta iota.
    rewrite H0, Hself.
    change (r_previous (sb_init cfg p n)) with s_zero. rewrite Hzero, H1.
    unfold shrink. rewrite Hneg. rewrite settle_plain; [reflexivity|auto..]. }
  assert (Hb1 : sb_body cfg p n kd_tree st1
                = Stop SelfMatch (mkResultMA (ceiling_center cfg p n) (idx res1))).
  { unfold sb_body, st1. cbn [c]. rewrite Hq.
    change (vec_at (res0 :: res1 :: rest) 0) with (Some res0). cbv beta iota.
    rewrite H0, Hself. cbn [r_previous qidx]. rewrite Hnum. reflexivity. }
  unfold sb_iterations, sb_point, sb_run.
  rewrite (sb_loop_next 31 _ _ Hb0), (sb_loop_stop 30 _ _ _ Hb1).
  split; reflexivity.
Qed.

(** X7. Convergence in the first pass. [r_previous] starts at 0, so a first
    candidate radius below the tolerance counts as converged: the call returns
    the initial centre [p - n * initial_radius], not the small ball, and
    reports no feature point. *)
Theorem first_pass_convergence (res0 : KDTreeResult Scalar)
    (rest : list (KDTreeResult Scalar)) (q : Point Scalar) :
  n_nearest kd_tree (pt_sub_vec p (vec_scale n (initial_radius cfg))) 2 = res0 :: rest ->
  vec_at (the_data kd_tree) (idx res0) = Some q ->
  pt_eqb q p = false ->
  s_ltb (compute_radius p n q) s_zero = false ->
  s_ltb (initial_radius cfg) (compute_radius p n q) = false ->
  d_nonzero (denoise_preserve cfg) = false ->
  d_nonzero (denoise_planar cfg) = false ->
  s_ltb (s_abs (s_sub s_zero (compute_radius p n q))) delta_convergance = true ->
  sb_iterations cfg p n kd_tree = 1%nat
  /\ sb_point cfg p n kd_tree
     = Returned Converged
         (mkResultMA (pt_sub_vec p (vec_scale n (initial_radius cfg))) (-1)).
Proof.
  intros Hq H0 Hother Hneg Hbig Hp Hl Hconv.
  assert (Hb : sb_body cfg p n kd_tree (sb_init cfg p n)
               = Stop Converged
                   (mkResultMA (pt_sub_vec p (vec_scale n (initial_radius cfg))) (-1))).
  { unfold sb_body.
    change (c (sb_init cfg p n)) with (pt_sub_vec p (vec_scale n (initial_radius cfg))).
    rewrite Hq.
    change (vec_at (res0 :: rest) 0) with (Some res0). cbv beta iota.
    rewrite H0, Hother. unfold shrink. rewrite Hneg, Hbig.
    unfold settle.
    change (r_previous (sb_init cfg p n)) with s_zero.
    rewrite Hp, Hl, Hconv. reflexivity. }
  unfold sb_iterations, sb_point, sb_run.
  rewrite (sb_loop_stop 31 _ _ _ Hb). split; reflexivity.
Qed.

End Passes.

(** ** The driver *)

Section Driver.
Context {Scalar Double : Type} {A : Arith Scalar Double}.
Variable cfg : Config Scalar Double.


(** X9. The outward pass is the inward pass on the negated normals. *)
Theorem outer_pass_is_inner_on_negated (points : list (Point Scalar))
    (normals : list (Vector Scalar)) (kd_tree : KDTree Scalar) :
  sb_points cfg points normals kd_tree false
  = sb_points cfg points (map vec_neg normals) kd_tree true.
Proof.
  unfold sb_points. apply map_ext. intros i. rewrite nth_error_map.
  destruct (nth_error points i), (nth_error normals i); reflexivity.
Qed.


(** X11. [sb_points] takes the number of slots from the points and does not check
    the normals: a point whose index lies beyond the normals is served by an
    out-of-range read. *)
Theorem sb_points_missing_normal (points : list (Point Scalar))
    (normals : list (Vector Scalar)) (kd_tree : KDTree Scalar) (inner : bool) (i : nat) :
  (length normals <= i < length points)%nat ->
  nth_error (sb_points cfg points normals kd_tree inner) i = Some Faulted.
Proof.
  intros [Hn Hp]. unfold sb_points. rewrite nth_error_map, nth_error_seq.
  destruct (Nat.ltb_spec i (length points)); [|lia]. cbn [option_map Nat.add].
  apply nth_error_None in Hn. rewrite Hn.
  destruct (nth_error points i); reflexivity.
Qed.

End Driver.

(** ** Signs and negation in [SpecFloat], for any precision *)

Section FloatSigns.
Variables prec emax : Z.

Lemma binary_round_aux_opp (s : bool) (m e : Z) (l : location) :
  binary_round_aux prec emax (negb s) m e l = SFopp (binary_round_aux prec emax s m e l).
Proof.
  unfold binary_round_aux.
  destruct (shr_fexp prec emax m e l) as [mrs' e'].
  destruct (shr_fexp prec emax _ e' loc_Exact) as [mrs'' e''].
  destruct (shr_m mrs''); try reflexivity.
  destruct (e'' <=? emax - prec); reflexivity.
Qed.

Lemma binary_round_opp (s : bool) (m : positive) (e : Z) :
  binary_round prec emax (negb s) m e = SFopp (binary_round prec emax s m e).
Proof.
  unfold binary_round.
  destruct (shl_align m e _) as [mz ez]. apply binary_round_aux_opp.
Qed.

Lemma SFopp_involutive (x : spec_float) : SFopp (SFopp x) = x.
Proof. destruct x as [s|s| |s m e]; cbn; rewrite ?negb_involutive; reflexivity. Qed.

Lemma is_zero_opp (x : spec_float) : is_zero (SFopp x) = is_zero x.
Proof. destruct x; reflexivity. Qed.

Lemma SFmul_opp_l (x y : spec_float) :
  SFmul prec emax (SFopp x) y = SFopp (SFmul prec emax x y).
Proof.
  destruct x as [sx|sx| |sx mx ex], y as [sy|sy| |sy my ey]; cbn [SFopp SFmul];
    try reflexivity;
    try (destruct sx, sy; reflexivity).
  rewrite <- binary_round_aux_opp. destruct sx, sy; reflexivity.
Qed.

Lemma SFmul_opp_r (x y : spec_float) :
  SFmul prec emax x (SFopp y) = SFopp (SFmul prec emax x y).
Proof.
  destruct x as [sx|sx| |sx mx ex], y as [sy|sy| |sy my ey]; cbn [SFopp SFmul];
    try reflexivity;
    try (destruct sx, sy; reflexivity).
  rewrite <- binary_round_aux_opp. destruct sx, sy; reflexivity.
Qed.

Lemma SFdiv_opp_l (x y : spec_float) :
  SFdiv prec emax (SFopp x) y = SFopp (SFdiv prec emax x y).
Proof.
  destruct x as [sx|sx| |sx mx ex], y as [sy|sy| |sy my ey]; cbn [SFopp SFdiv];
    try reflexivity;
    try (destruct sx, sy; reflexivity).
  destruct (SFdiv_core_binary prec emax (Z.pos mx) ex (Z.pos my) ey) as [[mz ez] lz].
  rewrite <- binary_round_aux_opp. destruct sx, sy; reflexivity.
Qed.

Lemma SFdiv_opp_r (x y : spec_float) :
  SFdiv prec emax x (SFopp y) = SFopp (SFdiv prec emax x y).
Proof.
  destruct x as [sx|sx| |sx mx ex], y as [sy|sy| |sy my ey]; cbn [SFopp SFdiv];
    try reflexivity;
    try (destruct sx, sy; reflexivity).
  destruct (SFdiv_core_binary prec emax (Z.pos mx) ex (Z.pos my) ey) as [[mz ez] lz].
  rewrite <- binary_round_aux_opp. destruct sx, sy; reflexivity.
Qed.

Lemma cond_Zopp_negb (s : bool) (z : Z) : cond_Zopp (negb s) z = - cond_Zopp s z.
Proof. destruct s; cbn; lia. Qed.

Lemma binary_normalize_opp (m e : Z) :
  m <> 0 ->
  binary_normalize prec emax (- m) e false = SFopp (binary_normalize prec emax m e false).
Proof.
  intros Hm. destruct m as [|m|m]; [contradiction| |]; cbn [Z.opp binary_normalize].
  - apply (binary_round_opp false).
  - rewrite <- (binary_round_opp true). reflexivity.
Qed.

Lemma SFadd_opp (x y : spec_float) :
  is_zero (SFadd prec emax x y) = false ->
  SFadd prec emax (SFopp x) (SFopp y) = SFopp (SFadd prec emax x y).
Proof.
  destruct x as [sx|sx| |sx mx ex], y as [sy|sy| |sy my ey]; cbn [SFopp SFadd];
    try reflexivity;
    try (destruct sx, sy; cbn; intros H; try reflexivity; discriminate).
  intros Hz. rewrite !cond_Zopp_negb, <- Z.opp_add_distr.
  apply binary_normalize_opp. intros H0. rewrite H0 in Hz. discriminate.
Qed.

Lemma SFadd_opp_zero (x y : spec_float) :
  is_zero (SFadd prec emax x y) = true ->
  is_zero (SFadd prec emax (SFopp x) (SFopp y)) = true.
Proof.
  destruct x as [sx|sx| |sx mx ex], y as [sy|sy| |sy my ey]; cbn [SFopp SFadd];
    try (intros; discriminate); try reflexivity;
    try (destruct sx, sy; cbn; intros H; try reflexivity; discriminate).
  rewrite !cond_Zopp_negb, <- Z.opp_add_distr.
  set (S := cond_Zopp sx _ + cond_Zopp sy _).
  destruct (Z.eq_dec S 0) as [->|Hne]; [intros _; reflexivity|].
  rewrite (binary_normalize_opp _ _ Hne), is_zero_opp. auto.
Qed.

Lemma SFadd_zero_l (z t : spec_float) :
  is_zero z = true -> is_zero t = false -> SFadd prec emax z t = t.
Proof. destruct z, t; cbn; try discriminate; reflexivity. Qed.

Lemma binary_round_aux_sign (s : bool) (m e : Z) (l : location) :
  sign_bit (binary_round_aux prec emax s m e l) = None
  \/ sign_bit (binary_round_aux prec emax s m e l) = Some s.
Proof.
  unfold binary_round_aux.
  destruct (shr_fexp prec emax m e l) as [mrs' e'].
  destruct (shr_fexp prec emax _ e' loc_Exact) as [mrs'' e''].
  destruct (shr_m mrs''); cbn; auto.
  destruct (e'' <=? emax - prec); cbn; auto.
Qed.

Lemma binary_round_sign (s : bool) (m : positive) (e : Z) :
  sign_bit (binary_round prec emax s m e) = None
  \/ sign_bit (binary_round prec emax s m e) = Some s.
Proof.
  unfold binary_round. destruct (shl_align m e _) as [mz ez]. apply binary_round_aux_sign.
Qed.

(** A product or a quotient is NaN or carries the exclusive or of the signs. *)
Lemma SFmul_sign (x y : spec_float) :
  sign_bit (SFmul prec emax x y) = None
  \/ exists sx sy, sign_bit x = Some sx /\ sign_bit y = Some sy
                   /\ sign_bit (SFmul prec emax x y) = Some (xorb sx sy).
Proof.
  destruct x as [sx|sx| |sx mx ex], y as [sy|sy| |sy my ey]; cbn [SFmul sign_bit]; auto;
    try solve [right; exists sx, sy; auto].
  destruct (binary_round_aux_sign (xorb sx sy) (Z.pos (mx * my)) (ex + ey) loc_Exact)
    as [H|H]; [auto|].
  right. exists sx, sy. auto.
Qed.

Lemma SFdiv_sign (x y : spec_float) :
  sign_bit (SFdiv prec emax x y) = None
  \/ exists sx sy, sign_bit x = Some sx /\ sign_bit y = Some sy
                   /\ sign_bit (SFdiv prec emax x y) = Some (xorb sx sy).
Proof.
  destruct x as [sx|sx| |sx mx ex], y as [sy|sy| |sy my ey]; cbn [SFdiv sign_bit]; auto;
    try solve [right; exists sx, sy; auto].
  destruct (SFdiv_core_binary prec emax (Z.pos mx) ex (Z.pos my) ey) as [[mz ez] lz].
  destruct (binary_round_aux_sign (xorb sx sy) mz ez lz) as [H|H]; [auto|].
  right. exists sx, sy. auto.
Qed.

Lemma SFadd_no_minus (x y : spec_float) :
  no_minus x -> no_minus y -> no_minus (SFadd prec emax x y).
Proof.
  unfold no_minus.
  destruct x as [[|]|[|]| |[|] mx ex], y as [[|]|[|]| |[|] my ey]; cbn [SFadd sign_bit];
    intros Hx Hy; try congruence; try discriminate.
  cbn [cond_Zopp]. 
  set (a := fst (shl_align mx ex (Z.min ex ey))).
  set (b := fst (shl_align my ey (Z.min ex ey))).
  change (Z.pos a + Z.pos b) with (Z.pos (a + b)). cbn [binary_normalize].
  destruct (binary_round_sign false (a + b) (Z.min ex ey)) as [H|H]; rewrite H; discriminate.
Qed.

Lemma SFsqrt_no_minus (x : spec_float) : no_minus x -> no_minus (SFsqrt prec emax x).
Proof.
  unfold no_minus.
  destruct x as [[|]|[|]| |[|] mx ex]; cbn [SFsqrt sign_bit]; intros Hx; try congruence;
    try discriminate.
  destruct (SFsqrt_core_binary prec emax (Z.pos mx) ex) as [[mz ez] lz].
  destruct (binary_round_aux_sign false mz ez lz) as [H|H]; rewrite H; discriminate.
Qed.

Lemma SFmul_square_no_minus (x : spec_float) : no_minus (SFmul prec emax x x).
Proof.
  unfold no_minus. destruct (SFmul_sign x x) as [H|(sx & sy & Hx & Hy & H)]; rewrite H.
  - discriminate.
  - rewrite Hx in Hy. injection Hy as <-. rewrite xorb_nilpotent. discriminate.
Qed.

End FloatSigns.

(** ** The solver in IEEE arithmetic *)

Section FloatSolver.

Lemma s_mul_nan_r (x : spec_float) : s_mul (Arith := IEEE.arith) x S754_nan = S754_nan.
Proof. destruct x; reflexivity. Qed.

Lemma s_sub_nan_r (x : spec_float) : s_sub (Arith := IEEE.arith) x S754_nan = S754_nan.
Proof. destruct x; reflexivity. Qed.

Lemma s_ltb_nan_r (x : spec_float) : s_ltb (Arith := IEEE.arith) x S754_nan = false.
Proof. destruct x; reflexivity. Qed.

Lemma s_ltb_nan_l (x : spec_float) : s_ltb (Arith := IEEE.arith) S754_nan x = false.
Proof. reflexivity. Qed.

Lemma d_ltb_nan_l (x : spec_float) : d_ltb (Arith := IEEE.arith) S754_nan x = false.
Proof. reflexivity. Qed.

Lemma nan_centre (p : Point spec_float) (n : Vector spec_float) :
  pt_sub_vec p (vec_scale n S754_nan) = nanPoint.
Proof.
  unfold pt_sub_vec, vec_scale, nanPoint. cbn [px py pz vx vy vz].
  rewrite !s_mul_nan_r, !s_sub_nan_r. reflexivity.
Qed.

Lemma nan_separation (p q : Point spec_float) :
  to_double (s_acos (cos_angle (pt_diff p nanPoint) (pt_diff q nanPoint))) = S754_nan.
Proof.
  unfold pt_diff, nanPoint. cbn [px py pz]. rewrite !s_sub_nan_r.
  vm_compute. reflexivity.
Qed.

(** X8. A candidate radius that is NaN passes every test of the body but the
    iteration cap: the pass commits it, with a centre whose coordinates are
    all NaN, as long as [j <= 30], and the cap stops the loop afterwards. *)
Theorem nan_radius_is_committed (cfg : Config spec_float spec_float)
    (p : Point spec_float) (n : Vector spec_float) (st : state spec_float)
    (qidx_next : Z) (q : Point spec_float) :
  compute_radius p n q = S754_nan ->
  shrink cfg p n st qidx_next q
  = if iteration_limit <? j st
    then Stop IterationLimit (mkResultMA (c st) (qidx st))
    else Next (mkState ((j st + 1) mod uint_max) S754_nan nanPoint qidx_next).
Proof.
  intros Hnan. unfold shrink. rewrite Hnan, s_ltb_nan_l, s_ltb_nan_r.
  unfold settle. rewrite nan_centre, nan_separation, !d_ltb_nan_l, s_sub_nan_r.
  rewrite !andb_false_r. cbn [andb].
  change (s_abs (Arith := IEEE.arith) S754_nan) with S754_nan. rewrite s_ltb_nan_l.
  reflexivity.
Qed.

Lemma s_mul_comm (x y : spec_float) :
  s_mul (Arith := IEEE.arith) x y = s_mul (Arith := IEEE.arith) y x.
Proof.
  destruct x as [s|s| |s m e], y as [s'|s'| |s' m' e']; cbn [s_mul IEEE.arith];
    unfold SFmul; try reflexivity; rewrite 1?(xorb_comm s s'); try reflexivity.
  rewrite (Pos.mul_comm m m'), (Z.add_comm e e'). reflexivity.
Qed.

Lemma d_mul_comm (x y : spec_float) :
  d_mul (Arith := IEEE.arith) x y = d_mul (Arith := IEEE.arith) y x.
Proof.
  destruct x as [s|s| |s m e], y as [s'|s'| |s' m' e']; cbn [d_mul IEEE.arith];
    unfold IEEE.d_mul64, SFmul; try reflexivity; rewrite 1?(xorb_comm s s'); try reflexivity.
  rewrite (Pos.mul_comm m m'), (Z.add_comm e e'). reflexivity.
Qed.

(** X13. In IEEE arithmetic [cos_angle] does not depend on the order of its two
    arguments: [cos_angle u v] and [cos_angle v u] are both NaN, or they are
    the same number, zeros of the same sign included. (The sign and payload
    of a NaN are not part of this model of the arithmetic.) *)
Theorem cos_angle_symmetric (u v : Vector spec_float) :
  cos_angle u v = cos_angle v u.
Proof.
  assert (Hdot : dot u v = dot v u).
  { unfold dot. rewrite (s_mul_comm (vx u)), (s_mul_comm (vy u)), (s_mul_comm (vz u)).
    reflexivity. }
  unfold cos_angle, cos_angle_raw. rewrite Hdot, (d_mul_comm (mag u)). reflexivity.
Qed.

Lemma widen_opp (x : spec_float) : widen (SFopp x) = SFopp (widen x).
Proof. destruct x as [s|s| |s m e]; try reflexivity. apply binary_round_opp. Qed.

Lemma narrow_opp (x : spec_float) : narrow (SFopp x) = SFopp (narrow x).
Proof. destruct x as [s|s| |s m e]; try reflexivity. apply binary_round_opp. Qed.

Lemma signed_as_trans (r b a : spec_float) : signed_as r b -> signed_as b a -> signed_as r a.
Proof. unfold signed_as. intros [H|H] [H'|H']; auto; right + left; congruence. Qed.

Lemma widen_signed (x : spec_float) : signed_as (widen x) x.
Proof.
  destruct x as [s|s| |s m e]; try (right; reflexivity).
  destruct (binary_round_sign prec64 emax64 s m e); [left|right]; assumption.
Qed.

Lemma narrow_signed (x : spec_float) : signed_as (narrow x) x.
Proof.
  destruct x as [s|s| |s m e]; try (right; reflexivity).
  destruct (binary_round_sign prec32 emax32 s m e); [left|right]; assumption.
Qed.

Lemma div_signed_l (p e : Z) (x d : spec_float) :
  no_minus d -> signed_as (SFdiv p e x d) x.
Proof.
  intros Hd. destruct (SFdiv_sign p e x d) as [H|(sx & sy & Hx & Hy & H)]; [left; assumption|].
  right. rewrite H, Hx. destruct sy; [contradiction|]. rewrite xorb_false_r. reflexivity.
Qed.

Lemma div_signed_r (p e : Z) (d x : spec_float) :
  no_minus d -> signed_as (SFdiv p e d x) x.
Proof.
  intros Hd. destruct (SFdiv_sign p e d x) as [H|(sx & sy & Hx & Hy & H)]; [left; assumption|].
  right. rewrite H, Hy. destruct sx; [contradiction|]. reflexivity.
Qed.

Lemma twice_signed (x : spec_float) : signed_as (s_mul (Arith := IEEE.arith) s_two x) x.
Proof.
  destruct (SFmul_sign prec32 emax32 (f32_of_Z 2) x) as [H|(sx & sy & Hx & Hy & H)];
    [left; assumption|].
  right. change (s_mul s_two x) with (SFmul prec32 emax32 (f32_of_Z 2) x).
  rewrite H, Hy. change (sign_bit (f32_of_Z 2)) with (Some false) in Hx.
  injection Hx as <-. reflexivity.
Qed.

Lemma dot_self_no_minus (v : Vector spec_float) : no_minus (dot (A := IEEE.arith) v v).
Proof.
  unfold dot. cbn [s_add s_mul IEEE.arith].
  repeat apply SFadd_no_minus; apply SFmul_square_no_minus.
Qed.

Lemma mag_no_minus (v : Vector spec_float) : no_minus (mag (A := IEEE.arith) v).
Proof.
  unfold mag. cbn [d_sqrt to_double IEEE.arith]. apply SFsqrt_no_minus.
  pose proof (dot_self_no_minus v) as H. pose proof (widen_signed (dot v v)) as [W|W];
    unfold no_minus in *; congruence.
Qed.

(** X15. In IEEE arithmetic the radius [compute_radius] returns is NaN or has
    the sign bit of the dot product [n * (p-q)] as the code computes it. So
    the wrong-side test [r < 0] succeeds only for a neighbour whose dot
    product is negative or a negative zero, and a neighbour with a positive
    dot product is never taken for one on the wrong side; likewise with the
    signs exchanged. *)
Theorem radius_sign (p : Point spec_float) (n : Vector spec_float) (q : Point spec_float) :
  signed_as (compute_radius p n q) (dot n (pt_diff p q))
  /\ (s_ltb (compute_radius p n q) s_zero = true -> sign_bit (dot n (pt_diff p q)) = Some true)
  /\ (s_ltb s_zero (compute_radius p n q) = true -> sign_bit (dot n (pt_diff p q)) = Some false)
  /\ (s_ltb s_zero (dot n (pt_diff p q)) = true -> s_ltb (compute_radius p n q) s_zero = false)
  /\ (s_ltb (dot n (pt_diff p q)) s_zero = true -> s_ltb s_zero (compute_radius p n q) = false).
Proof.
  assert (Hs : signed_as (compute_radius p n q) (dot n (pt_diff p q))).
  { unfold compute_radius. cbn [of_double to_double d_div IEEE.arith].
    pose proof (mag_no_minus (pt_diff p q)) as Hd.
    eapply signed_as_trans; [apply narrow_signed|].
    eapply signed_as_trans; [apply (div_signed_r _ _ _ _ Hd)|].
    eapply signed_as_trans; [apply widen_signed|].
    eapply signed_as_trans; [apply twice_signed|].
    eapply signed_as_trans; [apply narrow_signed|].
    eapply signed_as_trans; [apply (div_signed_l _ _ _ _ Hd)|].
    apply widen_signed. }
  split; [exact Hs|].
  change (s_zero (A := IEEE.arith)) with (S754_zero false).
  cbn [s_ltb IEEE.arith].
  set (r := compute_radius p n q) in *. set (a := dot n (pt_diff p q)) in *.
  clearbody r a. unfold signed_as in Hs.
  repeat split; intros H.
  - destruct r as [[|]|[|]| |[|] ? ?]; try discriminate; destruct Hs; cbn in *; congruence.
  - destruct r as [[|]|[|]| |[|] ? ?]; try discriminate; destruct Hs; cbn in *; congruence.
  - destruct a as [[|]|[|]| |[|] ? ?]; try discriminate;
      destruct r as [[|]|[|]| |[|] ? ?]; try reflexivity; destruct Hs; discriminate.
  - destruct a as [[|]|[|]| |[|] ? ?]; try discriminate;
      destruct r as [[|]|[|]| |[|] ? ?]; try reflexivity; destruct Hs; discriminate.
Qed.

Lemma dot_neg (n v : Vector spec_float) :
  is_zero (dot n v) = false -> dot (vec_neg n) v = SFopp (dot n v).
Proof.
  unfold dot, vec_neg. cbn [vx vy vz s_add s_mul s_neg IEEE.arith].
  rewrite !SFmul_opp_l.
  set (t1 := SFmul _ _ (vx n) (vx v)). set (t2 := SFmul _ _ (vy n) (vy v)).
  set (t3 := SFmul _ _ (vz n) (vz v)). intros Hz.
  destruct (is_zero (SFadd prec32 emax32 t1 t2)) eqn:H12.
  - assert (H3 : is_zero t3 = false).
    { destruct (SFadd prec32 emax32 t1 t2), t3; cbn in *; try discriminate; try reflexivity.
      destruct s, s0; discriminate. }
    rewrite (SFadd_zero_l _ _ _ _ H12 H3).
    apply SFadd_zero_l; [now apply SFadd_opp_zero|now rewrite is_zero_opp].
  - rewrite (SFadd_opp _ _ _ _ H12). now apply SFadd_opp.
Qed.

(** X14. In IEEE arithmetic, turning the normal round negates the radius,
    provided the dot product [n * (p-q)] is not a zero: the outward pass sees
    the candidate radii of the inward pass with the opposite sign, a NaN
    remaining a NaN. (When the dot product is a zero, both orientations can
    get the same infinite radius.) *)
Theorem radius_flips_with_normal (p : Point spec_float) (n : Vector spec_float)
    (q : Point spec_float) :
  is_zero (dot n (pt_diff p q)) = false ->
  compute_radius p (vec_neg n) q = SFopp (compute_radius p n q).
Proof.
  intros Hz. unfold compute_radius. rewrite (dot_neg _ _ Hz).
  cbn [of_double to_double d_div s_mul IEEE.arith]. unfold d_div64.
  change (s_two (A := IEEE.arith)) with (f32_of_Z 2).
  rewrite widen_opp, SFdiv_opp_l, narrow_opp, SFmul_opp_r, widen_opp, SFdiv_opp_r, narrow_opp.
  reflexivity.
Qed.

End FloatSolver.

(** ** The arrays of [main] *)

Section ArrayFacts.
Context {Scalar : Type}.

Lemma vec_at_of_nat {T : Type} (l : list T) (k : nat) : vec_at l (Z.of_nat k) = nth_error l k.
Proof.
  unfold vec_at. destruct (Z.ltb_spec (Z.of_nat k) 0); [lia|]. now rewrite Nat2Z.id.
Qed.

Lemma skipn_cons_nth (l : list Scalar) : forall k a,
  nth_error l k = Some a -> skipn k l = a :: skipn (S k) l.
Proof.
  induction l as [|x l IH]; intros [|k] a H; try discriminate.
  - injection H as ->. reflexivity.
  - cbn [nth_error] in H. cbn [skipn]. rewrite (IH k a H). reflexivity.
Qed.

Lemma point_from_in_range (carray : list Scalar) (k : nat) :
  (k + 3 <= length carray)%nat ->
  exists x y z, point_from carray (Z.of_nat k) = Some (mkPoint x y z)
                /\ skipn k carray = x :: y :: z :: skipn (k + 3) carray.
Proof.
  intros Hlen. unfold point_from.
  replace (Z.of_nat k + 1) with (Z.of_nat (k + 1)) by lia.
  replace (Z.of_nat k + 2) with (Z.of_nat (k + 2)) by lia.
  rewrite !vec_at_of_nat.
  destruct (nth_error carray k) as [x|] eqn:Hx; [|apply nth_error_None in Hx; lia].
  destruct (nth_error carray (k + 1)) as [y|] eqn:Hy; [|apply nth_error_None in Hy; lia].
  destruct (nth_error carray (k + 2)) as [z|] eqn:Hz; [|apply nth_error_None in Hz; lia].
  exists x, y, z. split; [reflexivity|].
  rewrite (skipn_cons_nth _ _ _ Hx).
  replace (S k) with (k + 1)%nat by lia. rewrite (skipn_cons_nth _ _ _ Hy).
  replace (S (k + 1)) with (k + 2)%nat by lia. rewrite (skipn_cons_nth _ _ _ Hz).
  replace (S (k + 2)) with (k + 3)%nat by lia. reflexivity.
Qed.

Lemma point_from_out_of_range (carray : list Scalar) (k : nat) :
  (length carray < k + 3)%nat -> point_from carray (Z.of_nat k) = None.
Proof.
  intros Hlen. unfold point_from.
  replace (Z.of_nat k + 2) with (Z.of_nat (k + 2)) by lia. rewrite (vec_at_of_nat _ (k + 2)).
  assert (Hz : nth_error carray (k + 2) = None) by (apply nth_error_None; lia).
  rewrite Hz. destruct (vec_at carray (Z.of_nat k)), (vec_at carray (Z.of_nat k + 1)); reflexivity.
Qed.

(** Below 2^32 the offset of row [k] is [3 k]. *)
Lemma point_at_row (carray : list Scalar) (k : nat) :
  3 * Z.of_nat k < uint_max ->
  point_at carray (Z.of_nat k) = point_from carray (Z.of_nat (3 * k)).
Proof.
  intros Hk. unfold point_at. f_equal. rewrite Z.mod_small; lia.
Qed.

Lemma load_from_in_range (carray : list Scalar) (count : nat) : forall k : nat,
  (3 * (k + count) <= length carray)%nat ->
  3 * Z.of_nat (k + count) <= uint_max + 2 ->
  exists pts, load_from carray (Z.of_nat k) count = Some pts
              /\ length pts = count
              /\ components pts = firstn (3 * count) (skipn (3 * k) carray).
Proof.
  induction count as [|count IH]; intros k Hlen Hmax.
  - exists []. repeat split.
  - destruct (point_from_in_range carray (3 * k)) as (x & y & z & Hp & Hs); [lia|].
    destruct (IH (S k)) as (rest & Hl & Hn & Hf); [lia|lia|].
    exists (mkPoint x y z :: rest). cbn [load_from].
    rewrite point_at_row by lia. rewrite Hp.
    replace (Z.of_nat k + 1) with (Z.of_nat (S k)) by lia. rewrite Hl.
    split; [reflexivity|]. split; [cbn [length]; lia|].
    rewrite Hs. replace (3 * S count)%nat with (S (S (S (3 * count)))) by lia.
    cbn [components flat_map firstn px py pz app]. fold (components rest).
    rewrite Hf. replace (3 * k + 3)%nat with (3 * S k)%nat by lia. reflexivity.
Qed.

Lemma load_from_out_of_range (carray : list Scalar) (count : nat) : forall k : nat,
  (0 < count)%nat -> (length carray < 3 * (k + count))%nat ->
  3 * Z.of_nat (k + count) <= uint_max + 2 ->
  load_from carray (Z.of_nat k) count = None.
Proof.
  induction count as [|count IH]; intros k Hpos Hlen Hmax; [lia|].
  cbn [load_from]. rewrite point_at_row by lia.
  destruct (Nat.lt_ge_cases (length carray) (3 * k + 3)) as [Hshort|Hlong].
  - rewrite (point_from_out_of_range _ _ Hshort). reflexivity.
  - replace (Z.of_nat k + 1) with (Z.of_nat (S k)) by lia.
    rewrite (IH (S k)); [|lia|lia|lia]. destruct (point_from carray _); reflexivity.
Qed.

Lemma components_length (pts : list (Point Scalar)) :
  length (components pts) = (3 * length pts)%nat.
Proof.
  induction pts as [|x pts IH]; [reflexivity|].
  cbn [components flat_map length app]. fold (components pts). rewrite IH. lia.
Qed.

Lemma components_inj (a : list (Point Scalar)) : forall b,
  components a = components b -> a = b.
Proof.
  induction a as [|x a IH]; intros [|y b] H; try reflexivity; try discriminate.
  cbn [components flat_map app] in H. fold (components a) (components b) in H.
  injection H as Hx Hy Hz Hrest. destruct x, y. cbn in Hx, Hy, Hz. subst.
  rewrite (IH b Hrest). reflexivity.
Qed.

(** X17. Up to 1431655766 rows the offsets [i*3] do not wrap: loading
    [num_points] rows then succeeds exactly when the array holds
    [3 * num_points] components, and the points loaded, taken component by
    component, are the part of the array that was read. From row 1431655766
    on the product wraps round 2^32: row [1431655766 + i] is read at offset
    [3 i + 2]. *)
Theorem load_points_bounds (carray : list Scalar) :
  (forall num_points, 0 <= num_points <= 1431655766 ->
     (3 * num_points <= Z.of_nat (length carray) ->
        exists pts, load_points carray num_points = Some pts
                    /\ Z.of_nat (length pts) = num_points
                    /\ components pts = firstn (Z.to_nat (3 * num_points)) carray)
     /\ (0 < num_points -> Z.of_nat (length carray) < 3 * num_points ->
         load_points carray num_points = None))
  /\ (forall i, 0 <= i <= 1431655764 ->
        point_at carray (1431655766 + i) = point_from carray (3 * i + 2)).
Proof.
  split.
  - intros num_points Hn. unfold load_points. split.
    + intros Hlen.
      destruct (load_from_in_range carray (Z.to_nat num_points) 0) as (pts & Hl & Hc & Hf).
      { lia. } { unfold uint_max. lia. }
      exists pts. change (Z.of_nat 0) with 0 in Hl. split; [exact Hl|]. split; [lia|].
      rewrite Hf. change (skipn (3 * 0) carray) with carray. f_equal. lia.
    + intros Hpos Hlen. apply (load_from_out_of_range carray (Z.to_nat num_points) 0).
      { lia. } { lia. } { unfold uint_max. lia. }
  - intros i Hi. unfold point_at. f_equal. unfold uint_max.
    replace ((1431655766 + i) * 3) with (3 * i + 2 + 1 * 2 ^ 32) by lia.
    rewrite Z.mod_add by lia. apply Z.mod_small. lia.
Qed.

Lemma store_here (pre rest : list (option Scalar)) (old : option Scalar) (k : Z) (x : Scalar) :
  k = Z.of_nat (length pre) ->
  store (pre ++ old :: rest) k x = Some (pre ++ Some x :: rest).
Proof.
  intros ->. unfold store. rewrite length_app. cbn [length].
  destruct (Z.leb_spec 0 (Z.of_nat (length pre))); [|lia].
  destruct (Z.ltb_spec (Z.of_nat (length pre)) (Z.of_nat (length pre + S (length rest))));
    [|lia].
  cbn [andb]. rewrite Nat2Z.id. f_equal.
  rewrite firstn_app, Nat.sub_diag, firstn_all. cbn [firstn]. rewrite app_nil_r. f_equal.
  f_equal. change (S (length pre)) with (1 + length pre)%nat.
  rewrite <- skipn_skipn.
  rewrite skipn_app, Nat.sub_diag, skipn_all. reflexivity.
Qed.

Lemma int_index_small (i j : Z) :
  0 <= j -> i * 3 + j <= int_max -> int_index i j = Some (i * 3 + j).
Proof.
  intros Hj Hk. unfold int_index.
  destruct (Z.leb_spec (i * 3) int_max); [|lia].
  destruct (Z.leb_spec (i * 3 + j) int_max); [|lia]. reflexivity.
Qed.

Lemma int_index_large (i j : Z) : int_max < i * 3 + j -> int_index i j = None.
Proof.
  intros Hk. unfold int_index.
  destruct (Z.leb_spec (i * 3 + j) int_max); [lia|]. rewrite andb_false_r. reflexivity.
Qed.

Lemma store_point_here (pre rest : list (option Scalar)) (o0 o1 o2 : option Scalar)
    (i : Z) (x : Point Scalar) :
  i * 3 = Z.of_nat (length pre) -> i * 3 + 2 <= int_max ->
  store_point (pre ++ o0 :: o1 :: o2 :: rest) i x
  = Some ((pre ++ [Some (px x); Some (py x); Some (pz x)]) ++ rest).
Proof.
  intros Hi Hmax. unfold store_point, store_at.
  rewrite !int_index_small by lia.
  rewrite store_here by lia.
  change (pre ++ Some (px x) :: o1 :: o2 :: rest)
    with (pre ++ [Some (px x)] ++ o1 :: o2 :: rest).
  rewrite app_assoc, store_here by (rewrite length_app; cbn [length]; lia).
  change ((pre ++ [Some (px x)]) ++ Some (py x) :: o2 :: rest)
    with ((pre ++ [Some (px x)]) ++ [Some (py x)] ++ o2 :: rest).
  rewrite app_assoc, store_here by (rewrite !length_app; cbn [length]; lia).
  rewrite <- !app_assoc. reflexivity.
Qed.

Lemma store_rows_fill (pts : list (Point Scalar)) : forall (i : Z) (pre suf : list (option Scalar)),
  i * 3 = Z.of_nat (length pre) ->
  3 * (i + Z.of_nat (length pts)) <= int_max + 1 ->
  store_rows pts i (pre ++ repeat None (3 * length pts) ++ suf)
  = Some (pre ++ map Some (components pts) ++ suf).
Proof.
  induction pts as [|x pts IH]; intros i pre suf Hi Hmax; [reflexivity|].
  cbn [store_rows length]. replace (3 * S (length pts))%nat with (S (S (S (3 * length pts)))) by lia.
  cbn [repeat app].
  rewrite store_point_here by (cbn [length] in Hmax; lia).
  rewrite IH.
  - cbn [components flat_map map app px py pz]. fold (components pts).
    rewrite <- !app_assoc. reflexivity.
  - rewrite length_app. cbn [length]. lia.
  - cbn [length] in Hmax. lia.
Qed.

Lemma store_rows_overflow (pts : list (Point Scalar)) : forall (i : Z) (a : list (option Scalar)),
  pts <> [] ->
  int_max + 1 < 3 * (i + Z.of_nat (length pts)) ->
  store_rows pts i a = None.
Proof.
  induction pts as [|x pts IH]; intros i a Hne Hmax; [contradiction|].
  cbn [store_rows]. destruct (store_point a i x) as [a'|] eqn:Hs; [|reflexivity].
  destruct pts as [|y pts].
  - exfalso. unfold store_point, store_at in Hs. cbn [length] in Hmax.
    rewrite (int_index_large i 2) in Hs by lia.
    destruct (int_index i 0); [|discriminate]. destruct (store a z (px x)); [|discriminate].
    destruct (int_index i 1); [|discriminate]. destruct (store l z0 (py x)); discriminate.
  - apply IH; [discriminate|]. cbn [length] in *. lia.
Qed.

(** X18. For [num_points] points with [3 * num_points <= 2^31], the loops of
    lines 297-300 fill the array with the components row by row, every index
    within int and within the array, and loading that array as on line 265
    gives the points back. With more points an index [i*3+j] leaves the
    range of int, or the array. *)
Theorem flatten_then_load (pts : list (Point Scalar)) (num_points : Z) :
  num_points = Z.of_nat (length pts) ->
  (3 * num_points <= int_max + 1 ->
     flatten_points pts num_points = Some (map Some (components pts))
     /\ load_points (components pts) num_points = Some pts)
  /\ (int_max + 1 < 3 * num_points -> flatten_points pts num_points = None).
Proof.
  intros ->. split.
  - intros Hmax. unfold int_max in Hmax. split.
    + unfold flatten_points. rewrite Z.mod_small by (unfold uint_max; lia).
      replace (Z.to_nat (Z.of_nat (length pts) * 3)) with (3 * length pts)%nat by lia.
      pose proof (store_rows_fill pts 0 [] []) as H. cbn [app] in H.
      rewrite !app_nil_r in H. apply H; [reflexivity|unfold int_max; lia].
    + destruct (load_from_in_range (components pts) (length pts) 0) as (pts' & Hl & Hn & Hf).
      { rewrite components_length. lia. } { unfold uint_max. lia. }
      unfold load_points. rewrite Nat2Z.id. change (Z.of_nat 0) with 0 in Hl. rewrite Hl.
      f_equal. apply components_inj.
      rewrite Hf. change (skipn (3 * 0) (components pts)) with (components pts).
      rewrite <- components_length. apply firstn_all.
  - intros Hmax. unfold flatten_points. apply store_rows_overflow; [|lia].
    intros ->. cbn in Hmax. unfold int_max in Hmax. lia.
Qed.

End ArrayFacts.

(** ** The file paths of [main] *)

Module PathFacts.
Import Ascii String Paths.
Local Open Scope string_scope.

Lemma replace_backslash_append (a b : string) :
  replace_backslash (a ++ b) = replace_backslash a ++ replace_backslash b.
Proof. induction a as [|ch a IH]; [reflexivity|]. cbn. rewrite IH. reflexivity. Qed.

Lemma has_backslash_append (a b : string) :
  has_backslash (a ++ b) = (has_backslash a || has_backslash b)%bool.
Proof.
  induction a as [|ch a IH]; [reflexivity|]. cbn. rewrite IH. apply orb_assoc.
Qed.

Lemma replace_backslash_clean (s : string) : has_backslash (replace_backslash s) = false.
Proof.
  induction s as [|ch s IH]; [reflexivity|]. cbn [replace_backslash has_backslash].
  rewrite IH. destruct (Ascii.eqb ch backslash) eqn:E; [reflexivity|].
  rewrite E. reflexivity.
Qed.

Lemma replace_backslash_fixed (s : string) :
  has_backslash s = false -> replace_backslash s = s.
Proof.
  induction s as [|ch s IH]; [reflexivity|]. cbn [replace_backslash has_backslash].
  intros H. apply orb_false_elim in H. destruct H as [Hc Hs].
  rewrite Hc, (IH Hs). reflexivity.
Qed.

(** X19. None of the six file names [main] opens contains a backslash, whatever
    the two directory arguments are. *)
Theorem paths_without_backslash (input : string) (output : option string) :
  List.Forall (fun s => has_backslash s = false) (all_paths (main_paths input output)).
Proof.
  unfold all_paths, main_paths. cbn.
  repeat constructor;
    rewrite ?has_backslash_append, ?replace_backslash_clean; reflexivity.
Qed.

(** X20. Without an output argument the four result files are written into the
    input directory, next to the two files read. *)
Theorem paths_default_output (input : string) :
  all_paths (main_paths input None)
  = List.map (fun name => replace_backslash input ++ name)
             ["/coords.npy"; "/normals.npy"; "/ma_coords_in.npy"; "/ma_coords_out.npy";
              "/ma_qidx_in.npy"; "/ma_qidx_out.npy"]%list.
Proof.
  unfold all_paths, main_paths. cbn [List.map input_coords_path input_normals_path
    output_path_ma_in output_path_ma_out output_path_ma_q_in output_path_ma_q_out].
  rewrite !replace_backslash_append. reflexivity.
Qed.

(** X21. Directory arguments spelled with backslashes and with slashes give the
    same six file names. *)
Theorem paths_spelling (input : string) (output : option string) :
  main_paths (replace_backslash input) (option_map replace_backslash output)
  = main_paths input output.
Proof.
  unfold main_paths. rewrite !replace_backslash_append.
  rewrite !(replace_backslash_fixed (replace_backslash input) (replace_backslash_clean input)).
  destruct output as [o|]; cbn [option_map];
    rewrite ?(replace_backslash_fixed (replace_backslash o) (replace_backslash_clean o)),
            ?(replace_backslash_fixed (replace_backslash input) (replace_backslash_clean input));
    reflexivity.
Qed.

End PathFacts.

(** ** The further properties at concrete inputs *)

Lemma planar_stop_first_pass_witness :
  sb_point (default_config 10) origin up (exhaustive_tree two_points)
  = Returned DenoisePlanar (mkResultMA (pt 0 0 (-10)) (-1))
  /\ sb_iterations (default_config 10) origin up (exhaustive_tree two_points) = 1%nat.
Proof.
  assert (H : sb_point (default_config 10) origin up (exhaustive_tree two_points)
              = Returned DenoisePlanar (mkResultMA (pt 0 0 (-10)) (-1)))
    by (vm_compute; reflexivity).
  split; [exact H|].
  exact (proj1 (planar_stop_first_pass (default_config 10) origin up
                  (exhaustive_tree two_points) _ _ H eq_refl)).
Defined.

Lemma iteration_limit_after_32_witness :
  sb_point (default_config 65536) origin down (exhaustive_tree halving_points)
  = Returned IterationLimit (mkResultMA small_up 31)
  /\ sb_iterations (default_config 65536) origin down (exhaustive_tree halving_points) = 32%nat.
Proof.
  assert (H : sb_point (default_config 65536) origin down (exhaustive_tree halving_points)
              = Returned IterationLimit (mkResultMA small_up 31))
    by (vm_compute; reflexivity).
  split; [exact H|].
  exact (proj1 (iteration_limit_after_32 (default_config 65536) origin down
                  (exhaustive_tree halving_points) _ _ H eq_refl)).
Defined.

Lemma preserve_stop_after_commit_witness :
  sb_point (default_config 10) origin down (exhaustive_tree grazing_points)
  = Returned DenoisePreserve (mkResultMA (pt 0 0 1) 1)
  /\ (2 <= sb_iterations (default_config 10) origin down (exhaustive_tree grazing_points))%nat
  /\ exists pre s final,
       fst (sb_run (default_config 10) 32 origin down (exhaustive_tree grazing_points))
       = pre ++ [s; final]
       /\ sb_body (default_config 10) origin down (exhaustive_tree grazing_points) s
          = Next final
       /\ c final = pt 0 0 1 /\ qidx final = 1.
Proof.
  assert (H : sb_point (default_config 10) origin down (exhaustive_tree grazing_points)
              = Returned DenoisePreserve (mkResultMA (pt 0 0 1) 1))
    by (vm_compute; reflexivity).
  split; [exact H|].
  destruct (preserve_stop_after_commit (default_config 10) origin down
              (exhaustive_tree grazing_points) _ _ H eq_refl)
    as (Hn & _ & pre & s & final & Hv & Hcommit & _ & Hc & _ & Hq).
  split; [exact Hn|].
  exists pre, s, final. split; [exact Hv|]. split; [exact Hcommit|].
  split; [symmetry; exact Hc|symmetry; exact Hq].
Defined.

Lemma zero_threshold_disables_witness :
  sb_point (plain_config 10) origin up (exhaustive_tree two_points)
  = Returned SelfMatch (mkResultMA (pt 0 0 (-10)) 1)
  /\ SelfMatch <> DenoisePreserve.
Proof.
  assert (H : sb_point (plain_config 10) origin up (exhaustive_tree two_points)
              = Returned SelfMatch (mkResultMA (pt 0 0 (-10)) 1))
    by (vm_compute; reflexivity).
  split; [exact H|].
  apply (proj1 (zero_threshold_disables (plain_config 10) origin up
                  (exhaustive_tree two_points) _ _ H)).
  vm_compute. reflexivity.
Defined.

Lemma no_feature_iff_first_pass_witness :
  sb_point (default_config 10) origin up (exhaustive_tree two_points)
  = Returned DenoisePlanar (mkResultMA (pt 0 0 (-10)) (-1))
  /\ (-1 = -1 <-> sb_iterations (default_config 10) origin up (exhaustive_tree two_points)
                  = 1%nat).
Proof.
  assert (H : sb_point (default_config 10) origin up (exhaustive_tree two_points)
              = Returned DenoisePlanar (mkResultMA (pt 0 0 (-10)) (-1)))
    by (vm_compute; reflexivity).
  split; [exact H|].
  exact (no_feature_iff_first_pass (default_config 10) origin up (exhaustive_tree two_points)
           DenoisePlanar (mkResultMA (pt 0 0 (-10)) (-1))
           (fun qv => exhaustive_tree_valid two_points qv 2) H).
Defined.

Lemma isolated_point_two_passes_witness :
  sb_iterations (plain_config 10) origin up (exhaustive_tree two_points) = 2%nat
  /\ sb_point (plain_config 10) origin up (exhaustive_tree two_points)
     = Returned SelfMatch (mkResultMA (pt 0 0 (-10)) 1).
Proof.
  destruct (isolated_point_two_passes (plain_config 10) origin up (exhaustive_tree two_points)
              (mkResult (f32_of_Z 100) 0) (mkResult (f32_of_Z 121) 1) [] origin (pt 0 0 1))
    as [Hn Hr]; try (vm_compute; reflexivity).
  split; [exact Hn|]. rewrite Hr. vm_compute. reflexivity.
Defined.

Lemma first_pass_convergence_witness :
  sb_iterations (plain_config 10) origin down (exhaustive_tree [origin; close_by]) = 1%nat
  /\ sb_point (plain_config 10) origin down (exhaustive_tree [origin; close_by])
     = Returned Converged (mkResultMA (pt 0 0 10) (-1)).
Proof.
  destruct (first_pass_convergence (plain_config 10) origin down
              (exhaustive_tree [origin; close_by])
              (mkResult (S754_finite false 13107198 (-17)) 1)
              [mkResult (f32_of_Z 100) 0] close_by)
    as [Hn Hr]; try (vm_compute; reflexivity).
  split; [exact Hn|]. rewrite Hr. vm_compute. reflexivity.
Defined.


Lemma sb_points_missing_normal_witness :
  nth_error (sb_points (default_config 10) two_points [up] (exhaustive_tree two_points) true) 1
  = Some Faulted.
Proof.
  apply (sb_points_missing_normal (default_config 10) two_points [up]
           (exhaustive_tree two_points) true 1).
  split; [apply le_n|apply le_n].
Defined.

Lemma nan_radius_is_committed_witness :
  compute_radius (pt 1 2 3) up (pt 1 2 3) = S754_nan
  /\ shrink (default_config 200) (pt 1 2 3) up (sb_init (default_config 200) (pt 1 2 3) up)
            1 (pt 1 2 3)
     = Next (mkState 1 S754_nan nanPoint 1).
Proof.
  assert (H : compute_radius (pt 1 2 3) up (pt 1 2 3) = S754_nan)
    by (vm_compute; reflexivity).
  split; [exact H|].
  rewrite (nan_radius_is_committed (default_config 200) (pt 1 2 3) up
             (sb_init (default_config 200) (pt 1 2 3) up) 1 (pt 1 2 3) H).
  reflexivity.
Defined.

Lemma load_points_bounds_witness :
  (exists pts, load_points [1; 2; 3; 4; 5; 6; 7; 8] 2 = Some pts
               /\ Z.of_nat (length pts) = 2
               /\ components pts = firstn (Z.to_nat (3 * 2)) [1; 2; 3; 4; 5; 6; 7; 8])
  /\ load_points [1; 2; 3; 4; 5] 2 = None
  /\ point_at [1; 2; 3; 4; 5; 6; 7; 8] (1431655766 + 1) = Some (mkPoint 6 7 8).
Proof.
  destruct (load_points_bounds [1; 2; 3; 4; 5; 6; 7; 8]) as [Hload Hwrap].
  destruct (load_points_bounds [1; 2; 3; 4; 5]) as [Hshort _].
  split; [|split].
  - apply (proj1 (Hload 2 ltac:(lia))). cbn. lia.
  - apply (proj2 (Hshort 2 ltac:(lia))); cbn; lia.
  - rewrite (Hwrap 1 ltac:(lia)). reflexivity.
Defined.

Lemma flatten_then_load_witness :
  flatten_points [mkPoint 1 2 3; mkPoint 4 5 6] 2
  = Some [Some 1; Some 2; Some 3; Some 4; Some 5; Some 6]
  /\ load_points [1; 2; 3; 4; 5; 6] 2 = Some [mkPoint 1 2 3; mkPoint 4 5 6].
Proof.
  destruct (flatten_then_load [mkPoint 1 2 3; mkPoint 4 5 6] 2 eq_refl) as [Hok _].
  apply Hok. unfold int_max. lia.
Defined.

Lemma radius_flips_with_normal_witness :
  is_zero (dot up (pt_diff origin (pt 0 0 1))) = false
  /\ compute_radius origin (vec_neg up) (pt 0 0 1) = f32 1 (-1)
  /\ compute_radius origin up (pt 0 0 1) = SFopp (f32 1 (-1))
  /\ compute_radius origin (vec_neg (vec 1 1 0)) (pt 1 (-1) 0)
     = compute_radius origin (vec 1 1 0) (pt 1 (-1) 0).
Proof.
  assert (H : is_zero (dot up (pt_diff origin (pt 0 0 1))) = false)
    by (vm_compute; reflexivity).
  split; [exact H|]. split; [|split; vm_compute; reflexivity].
  rewrite (radius_flips_with_normal origin up (pt 0 0 1) H). vm_compute. reflexivity.
Defined.
